(** * Cadete: dependency-tree SVO extraction (pln.py, singleton.py)

    A shallow embedding of the natural-language analysis module of Cadete.
    Tokens, phrases and sentences are records; Python exceptions and
    unbounded recursion are results of an error monad; the recursive tree
    walks carry a recursion budget. *)

From Stdlib Require Import String Ascii List Arith Lia Bool.
From Stdlib Require Import Sorted Permutation.
From stdpp Require Import base option list strings gmap.

(* stdpp freezes string concatenation under [simpl]; the renderer's proofs
   compute with it. *)
Local Arguments String.append !s1 s2 : simpl nomatch.

Local Open Scope string_scope.
Local Open Scope nat_scope.
Local Open Scope list_scope.

(** ** Results of running Python code *)

(** The exceptions the analysed methods can raise. *)
Inductive exn : Type :=
| IndexError      (* list index out of range *)
| AttributeError  (* attribute access on None *)
| KeyError        (* dict key not found *)
| ErroExterno.    (* raised by a collaborator, such as the parser loader *)

(** [Ok v] is a normal return, [Raise e] an exception that nothing in the
    module catches, and [Estouro] that the budget of nested calls ran out.
    A call that gives [Estouro] for every budget recurses without bound;
    CPython cuts such a call off at its stack limit. *)
Inductive res (A : Type) : Type :=
| Ok (v : A)
| Raise (e : exn)
| Estouro.

Arguments Ok {A} v.
Arguments Raise {A} e.
Arguments Estouro {A}.

Definition bind {A B : Type} (m : res A) (k : A -> res B) : res B :=
  match m with
  | Ok v => k v
  | Raise e => Raise e
  | Estouro => Estouro
  end.

Notation "'seja' x <- m 'em' k" := (bind m (fun x => k))
  (at level 10, x name, m at level 100, k at level 200).

(** A [for] loop whose body may raise: the accumulator is threaded from left
    to right and the first failure leaves the loop. *)
Fixpoint para {A B : Type} (corpo : B -> A -> res B) (l : list A) (acc : B)
  : res B :=
  match l with
  | [] => Ok acc
  | x :: l' => seja acc' <- corpo acc x em para corpo l' acc'
  end.

(** [l[i]] for a non-negative [i]. *)
Definition item {A : Type} (l : list A) (i : nat) : res A :=
  match l !! i with
  | Some x => Ok x
  | None => Raise IndexError
  end.

(** [o.attr] where [o] may be None. *)
Definition deref {A : Type} (o : option A) : res A :=
  match o with
  | Some x => Ok x
  | None => Raise AttributeError
  end.

(** [range(a, b)]. *)
Definition range (a b : nat) : list nat := seq a (b - a).

(** ** Data model *)

Definition TIPO_SENTENCA_DECLARATIVA : nat := 0.
Definition TIPO_SENTENCA_CONDICIONAL : nat := 1.

Definition RELACOES_OBJETO : list string := ["dobj"; "iobj"; "dative"].
Definition RELACOES_OBJETO_DIRETO : list string := ["dobj"].
Definition RELACOES_OBJETO_INDIRETO : list string := ["iobj"; "dative"].

(** [Token]: the normaliser numbers the tokens of a sentence from 0 and
    stores the head as the position [tokens.index(head)], so both are
    naturals. *)
Record Token : Type := mkToken {
  texto : string;
  indice : nat;
  pos : string;
  tag : string;
  lemma : string;
  dependencia : option (string * nat)
}.

Record Trecho : Type := mkTrecho { tokens : list Token }.

Record SVO : Type := mkSVO {
  sujeito : Trecho;
  verbo : option Trecho;
  objetoDireto : option Trecho;
  objetoIndireto : option Trecho
}.

(** [Sentenca] inherits [tokens] from [Trecho]. *)
Record Sentenca : Type := mkSentenca {
  s_tokens : list Token;
  tipo : option nat;
  svos : list SVO
}.

Definition nova_sentenca (ts : list Token) : Sentenca :=
  {| s_tokens := ts; tipo := None; svos := [] |}.

(** [x in tupla] for a tuple of strings. *)
Definition pertence (x : string) (tupla : list string) : bool :=
  existsb (String.eqb x) tupla.

(** [s.startswith(p)]. *)
Definition startswith (s p : string) : bool := String.prefix p s.

(** ** Trecho.__str__ and Trecho.ordenar *)

(** [texto[:-1]]. *)
Fixpoint sem_ultimo (s : string) : string :=
  match s with
  | EmptyString => EmptyString
  | String c EmptyString => EmptyString
  | String c s' => String c (sem_ultimo s')
  end.

Definition str_passo (acc : string) (token : Token) : string :=
  (if String.eqb (pos token) "PUNCT" then sem_ultimo acc else acc)
    +:+ texto token +:+ " ".

Definition Trecho_str (t : Trecho) : string :=
  sem_ultimo (fold_left str_passo (tokens t) "").

(** [sorted(tokens, key = lambda x: x.indice)]: a stable sort. *)
Fixpoint inserir (t : Token) (l : list Token) : list Token :=
  match l with
  | [] => [t]
  | u :: l' => if indice t <? indice u then t :: u :: l'
               else u :: inserir t l'
  end.

Definition sorted_indice (l : list Token) : list Token :=
  fold_left (fun acc t => inserir t acc) l [].

Definition ordenar (t : Trecho) : Trecho :=
  {| tokens := sorted_indice (tokens t) |}.

(** ** PLN.__obterTipoDaSentenca *)

Definition obterTipoDaSentenca (sentenca : Sentenca) : res nat :=
  seja t0 <- item (s_tokens sentenca) 0 em
  if String.eqb (pos t0) "ADP" then
    if String.eqb (texto t0) "if" then Ok TIPO_SENTENCA_CONDICIONAL
    else
      seja t1 <- item (s_tokens sentenca) 1 em
      if String.eqb (texto t1) "case" then Ok TIPO_SENTENCA_CONDICIONAL
      else Ok TIPO_SENTENCA_DECLARATIVA
  else Ok TIPO_SENTENCA_DECLARATIVA.

(** ** Tree walks *)

(** [token.dependencia is not None and token.dependencia[1] == i]. *)
Definition pai_e (token : Token) (i : nat) : bool :=
  match dependencia token with
  | Some (_, iPai) => iPai =? i
  | None => false
  end.

(** [token.dependencia is not None and token.dependencia[0] in relacoes]. *)
Definition relacao_em (token : Token) (relacoes : list string) : bool :=
  match dependencia token with
  | Some (rel, _) => pertence rel relacoes
  | None => false
  end.

(** [token.dependencia is not None and
    token.dependencia[0].startswith("nsubj")]. *)
Definition e_nsubj (token : Token) : bool :=
  match dependencia token with
  | Some (rel, _) => startswith rel "nsubj"
  | None => false
  end.

(** PLN.__obterDescendentes: every call spends one unit of the budget. *)
Fixpoint obterDescendentes (n : nat) (sentenca : Sentenca) (raiz : Token)
  : res (list Token) :=
  match n with
  | 0 => Estouro
  | S n' =>
      para (fun descendentes token =>
              if pai_e token (indice raiz) then
                seja sub <- obterDescendentes n' sentenca token em
                Ok ((descendentes ++ [token]) ++ sub)
              else Ok descendentes)
           (s_tokens sentenca) []
  end.

(** PLN.__buscarAscendenteComPOSEspecifico. *)
Fixpoint buscarAscendenteComPOSEspecifico (n : nat) (sentenca : Sentenca)
    (folha : Token) (p : string) : res (option Token) :=
  match n with
  | 0 => Estouro
  | S n' =>
      match dependencia folha with
      | Some (_, iPai) =>
          seja pai <- item (s_tokens sentenca) iPai em
          if String.eqb (pos pai) p then Ok (Some pai)
          else buscarAscendenteComPOSEspecifico n' sentenca pai p
      | None => Ok None
      end
  end.

(** PLN.__obterComplementaresDoVerbo. *)
Fixpoint obterComplementaresDoVerbo (n : nat) (sentenca : Sentenca)
    (raiz : Token) : res (list Token) :=
  match n with
  | 0 => Estouro
  | S n' =>
      para (fun complementares i =>
              seja token <- item (s_tokens sentenca) i em
              if pai_e token (indice raiz)
                 && negb (relacao_em token RELACOES_OBJETO) then
                seja sub <- obterComplementaresDoVerbo n' sentenca token em
                Ok ((complementares ++ [token]) ++ sub)
              else Ok complementares)
           (range (indice raiz) (length (s_tokens sentenca) - 1)) []
  end.

(** PLN.__obterDescendentesDaDireita: a loop, not a recursion; the budget
    goes to the calls of [obterDescendentes]. *)
Definition obterDescendentesDaDireita (n : nat) (sentenca : Sentenca)
    (raiz : Token) : res (list Token) :=
  para (fun descendentes i =>
          seja token <- item (s_tokens sentenca) i em
          if negb (String.eqb (pos token) "PUNCT")
             && pai_e token (indice raiz) then
            seja sub <- obterDescendentes n sentenca token em
            Ok ((descendentes ++ [token]) ++ sub)
          else Ok descendentes)
       (range (indice raiz) (length (s_tokens sentenca))) [].

(** ** Subjects, verbs, objects *)

(** PLN.__extrairSujeitos. *)
Definition extrairSujeitos (n : nat) (sentenca : Sentenca)
  : res (list Trecho) :=
  let nsubjs := List.filter e_nsubj (s_tokens sentenca) in
  para (fun sujeitos token =>
          seja descendentes <- obterDescendentes n sentenca token em
          Ok (sujeitos ++ [ordenar (mkTrecho (token :: descendentes))]))
       nsubjs [].

(** PLN.__obterVerboRelacionadoAoSujeito.  [tokenChave] stays None when the
    loop finds no subject token; the callee then fails on
    [folha.dependencia]. *)
Definition obterVerboRelacionadoAoSujeito (n : nat) (sentenca : Sentenca)
    (sujeito : Trecho) : res (option Trecho) :=
  let tokenChave := List.find e_nsubj (tokens sujeito) in
  seja folha <- deref tokenChave em
  seja verbo <- buscarAscendenteComPOSEspecifico n sentenca folha "VERB" em
  match verbo with
  | Some v =>
      seja complementares <- obterComplementaresDoVerbo n sentenca v em
      Ok (Some (mkTrecho (v :: complementares)))
  | None => Ok None
  end.

(** The scan for the main verb of a verb phrase. *)
Definition verboPrincipal (verbo : Trecho) : option Token :=
  List.find (fun token => String.eqb (pos token) "VERB") (tokens verbo).

(** PLN.__obterObjetosRelacionadosAoVerbo.  [verbo] is whatever
    [svo.verbo] holds, None included: [verbo.tokens] is the first thing
    evaluated.  A None [tokenChave] fails in the callee on [raiz.indice]. *)
Definition obterObjetosRelacionadosAoVerbo (n : nat) (sentenca : Sentenca)
    (verbo : option Trecho) (relacoes : list string) : res (option Trecho) :=
  seja v <- deref verbo em
  let tokenChave := verboPrincipal v in
  seja raiz <- deref tokenChave em
  seja descendentes <- obterDescendentesDaDireita n sentenca raiz em
  let objetos :=
    List.filter (fun token => relacao_em token relacoes) descendentes in
  if 0 <? length objetos then
    seja complementares <-
      para (fun complementares objeto =>
              seja d <- obterDescendentes n sentenca objeto em
              Ok (complementares ++ d))
           objetos [] em
    Ok (Some (ordenar (mkTrecho (objetos ++ complementares))))
  else Ok None.

(** PLN.__extrairSVOs. *)
Definition extrairSVOs (n : nat) (sentenca : Sentenca) : res (list SVO) :=
  seja sujeitos <- extrairSujeitos n sentenca em
  para (fun svos sujeito =>
          seja verbo <- obterVerboRelacionadoAoSujeito n sentenca sujeito em
          seja objetoDireto <-
            obterObjetosRelacionadosAoVerbo n sentenca verbo
              RELACOES_OBJETO_DIRETO em
          seja objetoIndireto <-
            obterObjetosRelacionadosAoVerbo n sentenca verbo
              RELACOES_OBJETO_INDIRETO em
          Ok (svos ++ [mkSVO sujeito verbo objetoDireto objetoIndireto]))
       sujeitos [].

(** The body of the loop of PLN.analisar for one sentence. *)
Definition analisarSentenca (n : nat) (sentenca : Sentenca) : res Sentenca :=
  seja t <- obterTipoDaSentenca sentenca em
  if t =? TIPO_SENTENCA_DECLARATIVA then
    seja svos <- extrairSVOs n sentenca em
    Ok {| s_tokens := s_tokens sentenca; tipo := Some t; svos := svos |}
  else
    Ok {| s_tokens := s_tokens sentenca; tipo := Some t;
          svos := svos sentenca |}.

(** [str(x)] for a field that holds a [Trecho] or None. *)
Definition str_opcional (o : option Trecho) : string :=
  match o with
  | Some t => Trecho_str t
  | None => "None"
  end.

(** ** Example sentences *)

Definition tk (txt : string) (i : nat) (p : string)
    (d : option (string * nat)) : Token :=
  {| texto := txt; indice := i; pos := p; tag := ""; lemma := txt;
     dependencia := d |}.

(** "The cat eats fish." *)
Definition gato : Sentenca :=
  nova_sentenca
    [ tk "the" 0 "DET" (Some ("det", 1));
      tk "cat" 1 "NOUN" (Some ("nsubj", 2));
      tk "eats" 2 "VERB" None;
      tk "fish" 3 "NOUN" (Some ("dobj", 2));
      tk "." 4 "PUNCT" (Some ("punct", 2)) ].

(** ** Singleton (singleton.py) *)

(** The part of the interpreter state the metaclass touches: the dict
    [Singleton._instances], keyed by class (a class is named by its name)
    and holding object identities; the next fresh object identity; and the
    classes whose [__init__] has run, in order. *)
Record Mundo : Type := mkMundo {
  _instances : gmap string nat;
  proximo : nat;
  iniciadas : list string
}.

Definition PLN : string := "PLN".

Section Metaclasse.

(** Whether [__init__] of a class returns in a given state; PLN's loads
    the parser and may raise. *)
Variable init_ok : string -> Mundo -> bool.

(** [type.__call__]: allocate an object and initialise it. *)
Definition type_call (cls : string) (w : Mundo) : res (nat * Mundo) :=
  if init_ok cls w then
    Ok (proximo w,
        {| _instances := _instances w;
           proximo := S (proximo w);
           iniciadas := iniciadas w ++ [cls] |})
  else Raise ErroExterno.

(** Singleton.__call__. *)
Definition Singleton_call (cls : string) (w : Mundo) : res (nat * Mundo) :=
  seja w1 <-
    match _instances w !! cls with
    | None =>
        seja r <- type_call cls w em
        Ok {| _instances := <[cls := fst r]> (_instances (snd r));
              proximo := proximo (snd r);
              iniciadas := iniciadas (snd r) |}
    | Some _ => Ok w
    end em
  match _instances w1 !! cls with
  | Some o => Ok (o, w1)
  | None => Raise KeyError
  end.

(** A sequence of constructor calls, [cls()] for each class of the list,
    with the objects they return. *)
Fixpoint chamadas (cs : list string) (w : Mundo) : res (list nat * Mundo) :=
  match cs with
  | [] => Ok ([], w)
  | c :: cs' =>
      seja r <- Singleton_call c w em
      seja rs <- chamadas cs' (snd r) em
      Ok (fst r :: fst rs, snd rs)
  end.

End Metaclasse.

(** How often [__init__] of a class has run. *)
Definition vezes_iniciada (cls : string) (w : Mundo) : nat :=
  length (List.filter (String.eqb cls) (iniciadas w)).

(** ** Definitions used by the statements *)

(** The separator the specification puts before a token that is not the
    first: a single space, and none before a punctuation token. *)
Definition separador (token : Token) : string :=
  if String.eqb (pos token) "PUNCT" then "" else " ".

Fixpoint juntar_resto (l : list Token) : string :=
  match l with
  | [] => ""
  | token :: l' => separador token +:+ texto token +:+ juntar_resto l'
  end.

(** The rendering as the specification words it: the surface forms joined
    by their separators, nothing after the last. *)
Definition juntar (l : list Token) : string :=
  match l with
  | [] => ""
  | token :: l' => texto token +:+ juntar_resto l'
  end.

(** "he is happy ," as a phrase. *)
Definition virgula : Trecho :=
  mkTrecho [ tk "he" 0 "PRON" (Some ("nsubj", 1));
             tk "is" 1 "VERB" None;
             tk "happy" 2 "ADJ" (Some ("acomp", 1));
             tk "," 3 "PUNCT" (Some ("punct", 1)) ].

(** One-token sentences made of an adposition. *)
Definition so_if : Sentenca := nova_sentenca [ tk "if" 0 "ADP" None ].
Definition so_in : Sentenca := nova_sentenca [ tk "in" 0 "ADP" None ].

(** "He happy": a subject whose head chain holds no verb. *)
Definition feliz : Sentenca :=
  nova_sentenca
    [ tk "he" 0 "PRON" (Some ("nsubj", 1));
      tk "happy" 1 "ADJ" None ].

(** Ascending order of a list of indices. *)
Fixpoint crescente (l : list nat) : bool :=
  match l with
  | a :: ((b :: _) as l') => (a <=? b) && crescente l'
  | _ => true
  end.

(** "She arrived with a man yesterday who smiled.": the relative clause
    hangs from "man", across "yesterday". *)
Definition chegou : Sentenca :=
  nova_sentenca
    [ tk "she" 0 "PRON" (Some ("nsubj", 1));
      tk "arrived" 1 "VERB" None;
      tk "with" 2 "ADP" (Some ("prep", 1));
      tk "a" 3 "DET" (Some ("det", 4));
      tk "man" 4 "NOUN" (Some ("pobj", 2));
      tk "yesterday" 5 "NOUN" (Some ("npadvmod", 1));
      tk "who" 6 "PRON" (Some ("nsubj", 7));
      tk "smiled" 7 "VERB" (Some ("relcl", 4));
      tk "." 8 "PUNCT" (Some ("punct", 1)) ].

(** "He runs fast", typed without a final period. *)
Definition corre : Sentenca :=
  nova_sentenca
    [ tk "he" 0 "PRON" (Some ("nsubj", 1));
      tk "runs" 1 "VERB" None;
      tk "fast" 2 "ADV" (Some ("advmod", 1)) ].

(** The tokens of a normalised sentence carry their own position. *)
Fixpoint numerada (i : nat) (l : list Token) : bool :=
  match l with
  | [] => true
  | token :: l' => (indice token =? i) && numerada (S i) l'
  end.

Definition normalizada (sentenca : Sentenca) : Prop :=
  numerada 0 (s_tokens sentenca) = true.

(** A direct dependent of [raiz] that the loop of the rightward walk
    accepts. *)
Definition filho_direito (sentenca : Sentenca) (raiz token : Token) : Prop :=
  In token (s_tokens sentenca)
  /\ pai_e token (indice raiz) = true
  /\ indice raiz <= indice token
  /\ pos token <> "PUNCT".

(** "What did you say that he ate?": the object of "ate" stands to the left
    of "say". *)
Definition disse : Sentenca :=
  nova_sentenca
    [ tk "what" 0 "PRON" (Some ("dobj", 6));
      tk "did" 1 "VERB" (Some ("aux", 3));
      tk "you" 2 "PRON" (Some ("nsubj", 3));
      tk "say" 3 "VERB" None;
      tk "that" 4 "ADP" (Some ("mark", 6));
      tk "he" 5 "PRON" (Some ("nsubj", 6));
      tk "ate" 6 "VERB" (Some ("ccomp", 3));
      tk "?" 7 "PUNCT" (Some ("punct", 3)) ].

(** "He eats fish, which he likes.": the comma hangs from "fish". *)
Definition gosta : Sentenca :=
  nova_sentenca
    [ tk "he" 0 "PRON" (Some ("nsubj", 1));
      tk "eats" 1 "VERB" None;
      tk "fish" 2 "NOUN" (Some ("dobj", 1));
      tk "," 3 "PUNCT" (Some ("punct", 2));
      tk "which" 4 "ADJ" (Some ("dobj", 6));
      tk "he" 5 "PRON" (Some ("nsubj", 6));
      tk "likes" 6 "VERB" (Some ("relcl", 2));
      tk "." 7 "PUNCT" (Some ("punct", 1)) ].

(** The position reached from [i] after [k] steps along the heads. *)
Fixpoint subir (k : nat) (sentenca : Sentenca) (i : nat) : option nat :=
  match k with
  | 0 => Some i
  | S k' =>
      match s_tokens sentenca !! i with
      | Some token =>
          match dependencia token with
          | Some (_, iPai) => subir k' sentenca iPai
          | None => None
          end
      | None => None
      end
  end.

(** Some token's head chain returns to the token. *)
Definition tem_ciclo (sentenca : Sentenca) : Prop :=
  exists i k, 0 < k /\ subir k sentenca i = Some i.

(** The number of edges from position [i] up to a token without a head,
    searched among chains of fewer than [k] edges. *)
Fixpoint profundidade (k : nat) (sentenca : Sentenca) (i : nat)
  : option nat :=
  match k with
  | 0 => None
  | S k' =>
      match s_tokens sentenca !! i with
      | Some token =>
          match dependencia token with
          | Some (_, iPai) => S <$> profundidade k' sentenca iPai
          | None => Some 0
          end
      | None => None
      end
  end.

(** Every head chain of the sentence ends in a token without a head: the
    edges stay inside the sentence and hold no cycle. *)
Definition enraizada (sentenca : Sentenca) : bool :=
  let n := length (s_tokens sentenca) in
  forallb (fun i => bool_decide (is_Some (profundidade n sentenca i)))
          (seq 0 n).

(** Two tokens that are each other's head. *)
Definition ciclo : Sentenca :=
  nova_sentenca
    [ tk "a" 0 "NOUN" (Some ("dep", 1));
      tk "b" 1 "NOUN" (Some ("dep", 0)) ].

(** The state before and after the first [PLN()]. *)
Definition mundo_inicial : Mundo :=
  {| _instances := ∅; proximo := 0; iniciadas := [] |}.

Definition mundo_pln : Mundo :=
  {| _instances := <[PLN := 0]> ∅; proximo := 1; iniciadas := [PLN] |}.

(** ** Walks over several sentences and further predicates *)

(** The tokens with a given index, in the order of the list. *)
Definition com_indice (k : nat) (l : list Token) : list Token :=
  List.filter (fun u => indice u =? k) l.

(** The loop of PLN.analisar over the normalised sentences, up to the call
    that prints them. *)
Definition analisarSentencas (n : nat) (sentencas : list Sentenca)
  : res (list Sentenca) :=
  para (fun feitas sentenca =>
          seja s <- analisarSentenca n sentenca em Ok (feitas ++ [s]))
       sentencas [].

(** The record [extrairSVOs] returns for "The cat eats fish.". *)
Definition svo_gato : SVO :=
  {| sujeito := mkTrecho [tk "the" 0 "DET" (Some ("det", 1));
                          tk "cat" 1 "NOUN" (Some ("nsubj", 2))];
     verbo := Some (mkTrecho [tk "eats" 2 "VERB" None]);
     objetoDireto := Some (mkTrecho [tk "fish" 3 "NOUN" (Some ("dobj", 2))]);
     objetoIndireto := None |}.

(** No token is its own head: the normaliser gives no edge to a word whose
    head is the word itself. *)
Definition sem_auto_pai (sentenca : Sentenca) : bool :=
  forallb (fun token => negb (pai_e token (indice token)))
          (s_tokens sentenca).

(** Every head is a position of the sentence. *)
Definition cabecas_validas (sentenca : Sentenca) : bool :=
  forallb (fun token =>
             match dependencia token with
             | Some (_, iPai) => iPai <? length (s_tokens sentenca)
             | None => true
             end)
          (s_tokens sentenca).

(** A token whose head lies outside the sentence. *)
Definition solto : Sentenca :=
  nova_sentenca [ tk "x" 0 "NOUN" (Some ("dep", 5)) ].

(** "The cat eats fish." and the lone "if" after the loop of the analysis. *)
Definition gato_feita : Sentenca :=
  {| s_tokens := s_tokens gato;
     tipo := Some TIPO_SENTENCA_DECLARATIVA;
     svos := [svo_gato] |}.

Definition so_if_feita : Sentenca :=
  {| s_tokens := s_tokens so_if;
     tipo := Some TIPO_SENTENCA_CONDICIONAL;
     svos := [] |}.

(** ** The normaliser (PLN.__normalizarAnaliseSintatica) *)

(** A word of the parser, as far as the normaliser reads it.  [i_] stands
    for the identity of the word (its place in the document), [head_] for
    the identity of its head: the root is its own head. *)
Record Palavra : Type := mkPalavra {
  lower_ : string;
  pos_ : string;
  tag_ : string;
  lemma_ : string;
  dep_ : string;
  i_ : nat;
  head_ : nat
}.

(** The normaliser returns or fails in [list.index]. *)
Inductive resn (A : Type) : Type :=
| Normal (v : A)
| ValueError.

Arguments Normal {A} v.
Arguments ValueError {A}.

(** [tokens.index(x)] for the word of identity [h]: the first position that
    holds it. *)
Fixpoint index_de (h : nat) (tokens : list Palavra) : option nat :=
  match tokens with
  | [] => None
  | w :: tokens' =>
      if i_ w =? h then Some 0 else S <$> index_de h tokens'
  end.

(** PLN.__obterDependenciasDoToken. *)
Definition obterDependenciasDoToken (frase : list Palavra) (token : Palavra)
  : resn (option (string * nat)) :=
  if head_ token =? i_ token then Normal None
  else
    match index_de (head_ token) frase with
    | Some iPai => Normal (Some (dep_ token, iPai))
    | None => ValueError
    end.

(** The inner loop of the normaliser, from the word at position [indice]
    on. *)
Fixpoint normalizarPalavras (frase resto : list Palavra) (indice : nat)
  : resn (list Token) :=
  match resto with
  | [] => Normal []
  | palavra :: resto' =>
      match obterDependenciasDoToken frase palavra with
      | Normal d =>
          match normalizarPalavras frase resto' (S indice) with
          | Normal ts =>
              Normal ({| texto := lower_ palavra;
                         indice := indice;
                         pos := pos_ palavra;
                         tag := tag_ palavra;
                         lemma := lemma_ palavra;
                         dependencia := d |} :: ts)
          | ValueError => ValueError
          end
      | ValueError => ValueError
      end
  end.

(** The outer loop: one [Sentenca] for each sentence of the document. *)
Fixpoint normalizarAnaliseSintatica (sents : list (list Palavra))
  : resn (list Sentenca) :=
  match sents with
  | [] => Normal []
  | frase :: sents' =>
      match normalizarPalavras frase frase 0 with
      | Normal ts =>
          match normalizarAnaliseSintatica sents' with
          | Normal ss => Normal (nova_sentenca ts :: ss)
          | ValueError => ValueError
          end
      | ValueError => ValueError
      end
  end.

(** The parse of "The cat eats fish." as the parser hands it over, the
    words numbered from 10 in their document. *)
Definition gato_doc : list (list Palavra) :=
  [[ mkPalavra "the" "DET" "" "the" "det" 10 11;
     mkPalavra "cat" "NOUN" "" "cat" "nsubj" 11 12;
     mkPalavra "eats" "VERB" "" "eats" "ROOT" 12 12;
     mkPalavra "fish" "NOUN" "" "fish" "dobj" 13 12;
     mkPalavra "." "PUNCT" "" "." "punct" 14 12 ]].

(** A sentence whose first word hangs from a word of another sentence. *)
Definition fora_doc : list (list Palavra) :=
  [[ mkPalavra "and" "CONJ" "" "and" "cc" 3 1;
     mkPalavra "runs" "VERB" "" "run" "ROOT" 4 4 ]].

(** Object identities are handed out in order, and no object serves two
    classes. *)
Definition mundo_ok (w : Mundo) : Prop :=
  (forall c o, _instances w !! c = Some o -> o < proximo w)
  /\ (forall c1 c2 o,
         _instances w !! c1 = Some o -> _instances w !! c2 = Some o ->
         c1 = c2).

(** What the loop of [extrairSujeitos] makes of one subject token. *)
Definition sujeito_de (n : nat) (sentenca : Sentenca) (token : Token)
  : res Trecho :=
  seja descendentes <- obterDescendentes n sentenca token em
  Ok (ordenar (mkTrecho (token :: descendentes))).

(** What the loop of [extrairSVOs] makes of one subject phrase. *)
Definition svo_de (n : nat) (sentenca : Sentenca) (suj : Trecho) : res SVO :=
  seja verbo <- obterVerboRelacionadoAoSujeito n sentenca suj em
  seja objetoDireto <-
    obterObjetosRelacionadosAoVerbo n sentenca verbo
      RELACOES_OBJETO_DIRETO em
  seja objetoIndireto <-
    obterObjetosRelacionadosAoVerbo n sentenca verbo
      RELACOES_OBJETO_INDIRETO em
  Ok (mkSVO suj verbo objetoDireto objetoIndireto).

(** The position [i] lies on a cycle of heads. *)
Definition em_ciclo (sentenca : Sentenca) (i : nat) : Prop :=
  exists k, 0 < k /\ subir k sentenca i = Some i.

(** A cycle of two tokens with a third hanging from it, beside a small
    tree. *)
Definition misto : Sentenca :=
  nova_sentenca
    [ tk "a" 0 "NOUN" (Some ("dep", 1));
      tk "b" 1 "NOUN" (Some ("dep", 0));
      tk "runs" 2 "VERB" None;
      tk "he" 3 "PRON" (Some ("nsubj", 2));
      tk "c" 4 "NOUN" (Some ("dep", 0)) ].

(** * Properties *)

(** ** The error monad and the loop combinator *)

Lemma bind_definido {A B : Type} (m : res A) (k : A -> res B) :
  bind m k <> Estouro -> m <> Estouro.
Proof. destruct m; simpl; congruence. Qed.

Lemma bind_ok {A B : Type} (m : res A) (k : A -> res B) (r : B) :
  bind m k = Ok r -> exists v, m = Ok v /\ k v = Ok r.
Proof. destruct m; simpl; try discriminate. eauto. Qed.

(** A loop that does not exhaust the budget computes the same with any body
    that agrees with its own wherever that one is defined. *)
Lemma para_ext_definido {A B : Type} (f g : B -> A -> res B) (l : list A) :
  forall acc,
    (forall a x, In x l -> f a x <> Estouro -> g a x = f a x) ->
    para f l acc <> Estouro -> para g l acc = para f l acc.
Proof.
  induction l as [|x l IH]; intros acc Hfg Hdef; simpl in *; [reflexivity|].
  assert (Hx : f acc x <> Estouro) by (eapply bind_definido; eauto).
  rewrite (Hfg acc x (or_introl eq_refl) Hx).
  destruct (f acc x) as [v| |]; simpl in *; try reflexivity.
  apply IH; auto.
Qed.

(** An invariant of the accumulator holds of the value a loop returns. *)
Lemma para_invariante {A B : Type} (P : B -> Prop) (f : B -> A -> res B)
    (l : list A) :
  forall acc r,
    P acc ->
    (forall a x a', In x l -> P a -> f a x = Ok a' -> P a') ->
    para f l acc = Ok r -> P r.
Proof.
  induction l as [|x l IH]; intros acc r Hacc Hstep Hrun; simpl in *.
  - congruence.
  - apply bind_ok in Hrun as (a' & Hx & Hrest).
    eapply IH; [| |exact Hrest]; eauto.
Qed.

(** A loop that returns has run its body, with success, on every element. *)
Lemma para_ok_corpo {A B : Type} (f : B -> A -> res B) (l : list A) :
  forall acc r x,
    para f l acc = Ok r -> In x l -> exists a a', f a x = Ok a'.
Proof.
  induction l as [|y l IH]; intros acc r x Hrun Hin; simpl in *; [tauto|].
  apply bind_ok in Hrun as (a' & Hy & Hrest).
  destruct Hin as [->|Hin]; eauto.
Qed.

(** A loop whose body returns on every element returns. *)
Lemma para_total {A B : Type} (f : B -> A -> res B) (l : list A) :
  forall acc,
    (forall a x, In x l -> exists a', f a x = Ok a') ->
    exists r, para f l acc = Ok r.
Proof.
  induction l as [|x l IH]; intros acc Hstep; simpl; [eauto|].
  destruct (Hstep acc x (or_introl eq_refl)) as [a' ->]; simpl.
  apply IH. intros a y Hy. apply Hstep. now right.
Qed.

Lemma item_ok {A : Type} (l : list A) (i : nat) (x : A) :
  item l i = Ok x -> l !! i = Some x.
Proof. unfold item. destruct (l !! i); congruence. Qed.

Lemma lookup_In {A : Type} (l : list A) :
  forall i x, l !! i = Some x -> In x l.
Proof.
  induction l as [|y l IH]; intros [|i] x H; simpl in *; try discriminate.
  - injection H as <-. now left.
  - right. eauto.
Qed.

Lemma In_range (a b x : nat) : In x (range a b) -> a <= x < b.
Proof. unfold range. rewrite in_seq. lia. Qed.

(** ** A result does not depend on the budget once the budget suffices *)

Lemma obterDescendentes_mono (sentenca : Sentenca) :
  forall n m raiz,
    n <= m -> obterDescendentes n sentenca raiz <> Estouro ->
    obterDescendentes m sentenca raiz = obterDescendentes n sentenca raiz.
Proof.
  induction n as [|n IH]; intros m raiz Hle Hdef; [simpl in Hdef; congruence|].
  destruct m as [|m]; [lia|]. simpl in *.
  apply para_ext_definido; [|exact Hdef].
  intros a x _ Hx. destruct (pai_e x (indice raiz)); [|reflexivity].
  apply bind_definido in Hx. rewrite IH; auto; lia.
Qed.

Lemma buscarAscendente_mono (sentenca : Sentenca) (p : string) :
  forall n m folha,
    n <= m -> buscarAscendenteComPOSEspecifico n sentenca folha p <> Estouro ->
    buscarAscendenteComPOSEspecifico m sentenca folha p
    = buscarAscendenteComPOSEspecifico n sentenca folha p.
Proof.
  induction n as [|n IH]; intros m folha Hle Hdef; [simpl in Hdef; congruence|].
  destruct m as [|m]; [lia|]. simpl in *.
  destruct (dependencia folha) as [[rel iPai]|]; [|reflexivity].
  destruct (item (s_tokens sentenca) iPai) as [pai| |]; simpl in *;
    try reflexivity.
  destruct (String.eqb (pos pai) p); [reflexivity|].
  apply IH; auto; lia.
Qed.

Lemma obterComplementares_mono (sentenca : Sentenca) :
  forall n m raiz,
    n <= m -> obterComplementaresDoVerbo n sentenca raiz <> Estouro ->
    obterComplementaresDoVerbo m sentenca raiz
    = obterComplementaresDoVerbo n sentenca raiz.
Proof.
  induction n as [|n IH]; intros m raiz Hle Hdef; [simpl in Hdef; congruence|].
  destruct m as [|m]; [lia|]. simpl in *.
  apply para_ext_definido; [|exact Hdef].
  intros a x _ Hx.
  destruct (item (s_tokens sentenca) x) as [token| |]; simpl in *;
    try reflexivity.
  destruct (pai_e token (indice raiz)
            && negb (relacao_em token RELACOES_OBJETO)); [|reflexivity].
  apply bind_definido in Hx. rewrite IH; auto; lia.
Qed.

Lemma obterDescendentesDaDireita_mono (sentenca : Sentenca) :
  forall n m raiz,
    n <= m -> obterDescendentesDaDireita n sentenca raiz <> Estouro ->
    obterDescendentesDaDireita m sentenca raiz
    = obterDescendentesDaDireita n sentenca raiz.
Proof.
  intros n m raiz Hle Hdef. unfold obterDescendentesDaDireita in *.
  apply para_ext_definido; [|exact Hdef].
  intros a x _ Hx.
  destruct (item (s_tokens sentenca) x) as [token| |]; simpl in *;
    try reflexivity.
  destruct (negb (String.eqb (pos token) "PUNCT")
            && pai_e token (indice raiz)); [|reflexivity].
  apply bind_definido in Hx. rewrite (obterDescendentes_mono _ n m); auto.
Qed.

Lemma extrairSujeitos_mono (sentenca : Sentenca) :
  forall n m,
    n <= m -> extrairSujeitos n sentenca <> Estouro ->
    extrairSujeitos m sentenca = extrairSujeitos n sentenca.
Proof.
  intros n m Hle Hdef. unfold extrairSujeitos in *.
  apply para_ext_definido; [|exact Hdef].
  intros a x _ Hx. apply bind_definido in Hx.
  rewrite (obterDescendentes_mono _ n m); auto.
Qed.

Lemma obterVerbo_mono (sentenca : Sentenca) (sujeito : Trecho) :
  forall n m,
    n <= m -> obterVerboRelacionadoAoSujeito n sentenca sujeito <> Estouro ->
    obterVerboRelacionadoAoSujeito m sentenca sujeito
    = obterVerboRelacionadoAoSujeito n sentenca sujeito.
Proof.
  intros n m Hle Hdef. unfold obterVerboRelacionadoAoSujeito in *.
  destruct (List.find e_nsubj (tokens sujeito)) as [folha|]; simpl in *;
    [|reflexivity].
  assert (Hb := bind_definido _ _ Hdef).
  rewrite (buscarAscendente_mono _ _ n m) by auto.
  destruct (buscarAscendenteComPOSEspecifico n sentenca folha "VERB")
    as [[v|]| |]; simpl in *; try reflexivity.
  apply bind_definido in Hdef.
  rewrite (obterComplementares_mono _ n m); auto.
Qed.

Lemma obterObjetos_mono (sentenca : Sentenca) (verbo : option Trecho)
    (relacoes : list string) :
  forall n m,
    n <= m ->
    obterObjetosRelacionadosAoVerbo n sentenca verbo relacoes <> Estouro ->
    obterObjetosRelacionadosAoVerbo m sentenca verbo relacoes
    = obterObjetosRelacionadosAoVerbo n sentenca verbo relacoes.
Proof.
  intros n m Hle Hdef. unfold obterObjetosRelacionadosAoVerbo in *.
  destruct verbo as [v|]; simpl in *; [|reflexivity].
  destruct (verboPrincipal v) as [raiz|]; simpl in *; [|reflexivity].
  assert (Hd := bind_definido _ _ Hdef).
  rewrite (obterDescendentesDaDireita_mono _ n m) by auto.
  destruct (obterDescendentesDaDireita n sentenca raiz) as [desc| |];
    simpl in *; try reflexivity.
  destruct (0 <? length _); [|reflexivity].
  apply bind_definido in Hdef.
  erewrite para_ext_definido; [reflexivity| |exact Hdef].
  intros a x _ Hx. apply bind_definido in Hx.
  rewrite (obterDescendentes_mono _ n m); auto.
Qed.

Lemma extrairSVOs_mono (sentenca : Sentenca) :
  forall n m,
    n <= m -> extrairSVOs n sentenca <> Estouro ->
    extrairSVOs m sentenca = extrairSVOs n sentenca.
Proof.
  intros n m Hle Hdef. unfold extrairSVOs in *.
  assert (Hs := bind_definido _ _ Hdef).
  rewrite (extrairSujeitos_mono _ n m) by auto.
  destruct (extrairSujeitos n sentenca) as [sujeitos| |]; simpl in *;
    try reflexivity.
  apply para_ext_definido; [|exact Hdef].
  intros a x _ Hx.
  assert (Hv := bind_definido _ _ Hx).
  rewrite (obterVerbo_mono _ _ n m) by auto.
  destruct (obterVerboRelacionadoAoSujeito n sentenca x) as [verbo| |];
    simpl in *; try reflexivity.
  assert (Hd := bind_definido _ _ Hx).
  rewrite (obterObjetos_mono _ _ _ n m) by auto.
  destruct (obterObjetosRelacionadosAoVerbo n sentenca verbo
              RELACOES_OBJETO_DIRETO) as [od| |]; simpl in *;
    try reflexivity.
  assert (Hi := bind_definido _ _ Hx).
  rewrite (obterObjetos_mono _ _ _ n m) by auto.
  reflexivity.
Qed.

(** ** Rendering (Trecho.__str__) *)

Lemma append_assoc (a b c : string) : (a +:+ b) +:+ c = a +:+ (b +:+ c).
Proof. induction a as [|x a IH]; simpl; [reflexivity|f_equal; exact IH]. Qed.

Lemma append_vazio_r (a : string) : a +:+ "" = a.
Proof. induction a as [|x a IH]; simpl; [reflexivity|f_equal; exact IH]. Qed.

(** [(s + " ")[:-1] == s]. *)
Lemma sem_ultimo_espaco (s : string) : sem_ultimo (s +:+ " ") = s.
Proof.
  induction s as [|c s IH]; [reflexivity|].
  simpl. rewrite IH. destruct s; reflexivity.
Qed.

Lemma str_passo_fold (l : list Token) :
  forall s,
    fold_left str_passo l (s +:+ " ") = (s +:+ juntar_resto l) +:+ " ".
Proof.
  induction l as [|token l IH]; intros s; simpl.
  - now rewrite append_vazio_r.
  - unfold str_passo at 2. unfold separador.
    destruct (String.eqb (pos token) "PUNCT").
    + rewrite sem_ultimo_espaco.
      rewrite <- append_assoc, IH. simpl.
      now rewrite !append_assoc.
    + replace ((s +:+ " ") +:+ texto token +:+ " ")
        with ((s +:+ " " +:+ texto token) +:+ " ")
        by now rewrite !append_assoc.
      rewrite IH. now rewrite !append_assoc.
Qed.

(** C8: rendering joins the surface forms with one space, a punctuation
    token attaches to the token before it, the trailing separator is
    trimmed; "he is happy ," with a punctuation comma renders as
    "he is happy,", and the empty phrase as the empty string. *)
Theorem Trecho_str_juntar :
  (forall t : Trecho, Trecho_str t = juntar (tokens t))
  /\ Trecho_str virgula = "he is happy,"
  /\ Trecho_str (mkTrecho []) = "".
Proof.
  split; [|split; reflexivity].
  intros [l]. unfold Trecho_str. simpl.
  destruct l as [|token l]; [reflexivity|].
  simpl. unfold str_passo at 2.
  assert (H0 : (if String.eqb (pos token) "PUNCT" then sem_ultimo "" else "")
               = "") by (destruct (String.eqb _ _); reflexivity).
  rewrite H0. simpl.
  rewrite str_passo_fold. apply sem_ultimo_espaco.
Qed.

(** ** Sentence type (PLN.__obterTipoDaSentenca) *)

(** A one-token sentence made of the adposition "if" is conditional, so not
    every sentence of fewer than two tokens is declarative. *)
Lemma obterTipo_um_token_if :
  ~ (forall sentenca : Sentenca,
       length (s_tokens sentenca) < 2 ->
       obterTipoDaSentenca sentenca = Ok TIPO_SENTENCA_DECLARATIVA).
Proof.
  intros H. specialize (H so_if). simpl in H.
  assert (Hc : obterTipoDaSentenca so_if = Ok TIPO_SENTENCA_CONDICIONAL)
    by reflexivity.
  rewrite H in Hc by lia. discriminate.
Qed.

(** The second token is read without a test of the length. *)
Lemma obterTipo_um_token_adp (sentenca : Sentenca) (token : Token) :
  s_tokens sentenca = [token] ->
  pos token = "ADP" -> texto token <> "if" ->
  obterTipoDaSentenca sentenca = Raise IndexError.
Proof.
  intros Hs Hp Ht. unfold obterTipoDaSentenca. rewrite Hs. simpl.
  rewrite Hp. simpl. apply String.eqb_neq in Ht. now rewrite Ht.
Qed.

Example obterTipo_so_in : obterTipoDaSentenca so_in = Raise IndexError.
Proof. apply (obterTipo_um_token_adp so_in (tk "in" 0 "ADP" None)); easy. Qed.

Lemma obterTipo_vazia (sentenca : Sentenca) :
  s_tokens sentenca = [] -> obterTipoDaSentenca sentenca = Raise IndexError.
Proof. intros Hs. unfold obterTipoDaSentenca. now rewrite Hs. Qed.

(** C3, as the code has it: a one-token sentence is declarative when its
    token is not an adposition and conditional when its token is the
    adposition "if"; neither case reads outside the sentence. *)
Theorem obterTipo_um_token (sentenca : Sentenca) (token : Token) :
  s_tokens sentenca = [token] ->
  (pos token <> "ADP" ->
   obterTipoDaSentenca sentenca = Ok TIPO_SENTENCA_DECLARATIVA)
  /\ (pos token = "ADP" -> texto token = "if" ->
      obterTipoDaSentenca sentenca = Ok TIPO_SENTENCA_CONDICIONAL).
Proof.
  intros Hs. unfold obterTipoDaSentenca. rewrite Hs. simpl. split.
  - intros Hp. apply String.eqb_neq in Hp. now rewrite Hp.
  - intros Hp Ht. rewrite Hp, Ht. reflexivity.
Qed.

Lemma obterTipo_um_token_witness :
  obterTipoDaSentenca (nova_sentenca [tk "run" 0 "VERB" None])
  = Ok TIPO_SENTENCA_DECLARATIVA
  /\ obterTipoDaSentenca so_if = Ok TIPO_SENTENCA_CONDICIONAL.
Proof.
  split.
  - apply (obterTipo_um_token (nova_sentenca [tk "run" 0 "VERB" None])
             (tk "run" 0 "VERB" None) eq_refl).
    discriminate.
  - apply (obterTipo_um_token so_if (tk "if" 0 "ADP" None) eq_refl);
      reflexivity.
Defined.

(** ** The worked example *)

(** C7: "The cat eats fish." yields exactly one SVO record: subject
    "the cat", verb "eats", direct object "fish", no indirect object. *)
Theorem extrairSVOs_gato :
  forall n,
    exists svo,
      extrairSVOs (2 + n) gato = Ok [svo]
      /\ Trecho_str (sujeito svo) = "the cat"
      /\ Trecho_str <$> verbo svo = Some "eats"
      /\ Trecho_str <$> objetoDireto svo = Some "fish"
      /\ objetoIndireto svo = None.
Proof.
  intros n.
  assert (H2 : exists svo,
             extrairSVOs 2 gato = Ok [svo]
             /\ Trecho_str (sujeito svo) = "the cat"
             /\ Trecho_str <$> verbo svo = Some "eats"
             /\ Trecho_str <$> objetoDireto svo = Some "fish"
             /\ objetoIndireto svo = None).
  { eexists. split; [vm_compute; reflexivity|].
    repeat split; reflexivity. }
  destruct H2 as (svo & Hrun & Hrest). exists svo. split; [|exact Hrest].
  rewrite (extrairSVOs_mono gato 2 (2 + n)); [exact Hrun|lia|].
  rewrite Hrun. discriminate.
Qed.

(** ** The head of a verb phrase *)

Lemma buscarAscendente_pos (sentenca : Sentenca) (p : string) :
  forall n folha v,
    buscarAscendenteComPOSEspecifico n sentenca folha p = Ok (Some v) ->
    pos v = p.
Proof.
  induction n as [|n IH]; intros folha v H; simpl in H; [discriminate|].
  destruct (dependencia folha) as [[rel iPai]|]; [|discriminate].
  apply bind_ok in H as (pai & Hpai & H).
  destruct (String.eqb (pos pai) p) eqn:Hp.
  - apply String.eqb_eq in Hp. congruence.
  - eauto.
Qed.

(** C9: a verb phrase returned by verb extraction starts with the token
    found by the upward search, whose POS is "VERB"; the scan for the main
    verb in object extraction therefore finds that token. *)
Theorem obterVerbo_cabeca (n : nat) (sentenca : Sentenca)
    (suj verbo : Trecho) :
  obterVerboRelacionadoAoSujeito n sentenca suj = Ok (Some verbo) ->
  exists folha v resto,
    List.find e_nsubj (tokens suj) = Some folha
    /\ buscarAscendenteComPOSEspecifico n sentenca folha "VERB" = Ok (Some v)
    /\ tokens verbo = v :: resto
    /\ pos v = "VERB"
    /\ verboPrincipal verbo = Some v.
Proof.
  unfold obterVerboRelacionadoAoSujeito. intros H.
  destruct (List.find e_nsubj (tokens suj)) as [folha|]; [|discriminate].
  simpl in H. apply bind_ok in H as ([v|] & Hv & H); [|discriminate].
  apply bind_ok in H as (comp & Hcomp & H).
  injection H as <-.
  assert (Hp := buscarAscendente_pos _ _ _ _ _ Hv).
  exists folha, v, comp. repeat split; auto.
  unfold verboPrincipal. simpl. now rewrite Hp.
Qed.

Lemma obterVerbo_cabeca_witness :
  exists folha v resto,
    List.find e_nsubj [tk "the" 0 "DET" (Some ("det", 1));
                       tk "cat" 1 "NOUN" (Some ("nsubj", 2))] = Some folha
    /\ buscarAscendenteComPOSEspecifico 2 gato folha "VERB" = Ok (Some v)
    /\ tokens (mkTrecho [tk "eats" 2 "VERB" None]) = v :: resto
    /\ pos v = "VERB"
    /\ verboPrincipal (mkTrecho [tk "eats" 2 "VERB" None]) = Some v.
Proof.
  apply (obterVerbo_cabeca 2 gato
           (mkTrecho [tk "the" 0 "DET" (Some ("det", 1));
                      tk "cat" 1 "NOUN" (Some ("nsubj", 2))])).
  reflexivity.
Defined.

(** ** A subject without a verb *)

(** Object extraction reads [verbo.tokens] first: a None verb raises. *)
Lemma obterObjetos_sem_verbo (n : nat) (sentenca : Sentenca)
    (relacoes : list string) :
  obterObjetosRelacionadosAoVerbo n sentenca None relacoes
  = Raise AttributeError.
Proof. reflexivity. Qed.

(** Whenever the upward search finds no verb for one of the subjects, the
    extraction of the SVO records does not return. *)
Lemma extrairSVOs_sem_verbo (n : nat) (sentenca : Sentenca)
    (sujeitos : list Trecho) (suj : Trecho) :
  extrairSujeitos n sentenca = Ok sujeitos ->
  In suj sujeitos ->
  obterVerboRelacionadoAoSujeito n sentenca suj = Ok None ->
  forall svos, extrairSVOs n sentenca <> Ok svos.
Proof.
  intros Hs Hin Hv svos Hrun. unfold extrairSVOs in Hrun.
  rewrite Hs in Hrun. simpl in Hrun.
  destruct (para_ok_corpo _ _ _ _ _ Hrun Hin) as (a & a' & Hbody).
  rewrite Hv in Hbody. simpl in Hbody. discriminate.
Qed.

(** C1 fails on the code: for "he happy" the subject phrase is found, the
    upward search returns None, and the extraction of the SVO records
    raises AttributeError instead of emitting a record without a verb. *)
Theorem extrairSVOs_feliz :
  forall n,
    extrairSujeitos (2 + n) feliz
    = Ok [mkTrecho [tk "he" 0 "PRON" (Some ("nsubj", 1))]]
    /\ obterVerboRelacionadoAoSujeito (2 + n) feliz
         (mkTrecho [tk "he" 0 "PRON" (Some ("nsubj", 1))]) = Ok None
    /\ extrairSVOs (2 + n) feliz = Raise AttributeError
    /\ analisarSentenca (2 + n) feliz = Raise AttributeError.
Proof.
  intros n.
  assert (Hs : extrairSujeitos (2 + n) feliz
               = Ok [mkTrecho [tk "he" 0 "PRON" (Some ("nsubj", 1))]]).
  { rewrite (extrairSujeitos_mono feliz 2 (2 + n)); [reflexivity|lia|].
    vm_compute. discriminate. }
  assert (Hv : obterVerboRelacionadoAoSujeito (2 + n) feliz
                 (mkTrecho [tk "he" 0 "PRON" (Some ("nsubj", 1))])
               = Ok None).
  { rewrite (obterVerbo_mono feliz _ 2 (2 + n)); [reflexivity|lia|].
    vm_compute. discriminate. }
  assert (He : extrairSVOs (2 + n) feliz = Raise AttributeError).
  { rewrite (extrairSVOs_mono feliz 2 (2 + n)); [reflexivity|lia|].
    vm_compute. discriminate. }
  split; [exact Hs|]. split; [exact Hv|]. split; [exact He|].
  unfold analisarSentenca. rewrite He. reflexivity.
Qed.

(** ** The order of a verb phrase *)

(** C4 fails on the code: the verb phrase keeps the order of discovery.  For
    "she" in [chegou] it holds the tokens 1, 2, 4, 7, 5 and renders as
    "arrived with man smiled yesterday"; [ordenar], which the subject and
    object paths call, would give 1, 2, 4, 5, 7. *)
Theorem obterVerbo_chegou :
  forall n,
    exists verbo,
      obterVerboRelacionadoAoSujeito (4 + n) chegou
        (mkTrecho [tk "she" 0 "PRON" (Some ("nsubj", 1))]) = Ok (Some verbo)
      /\ map indice (tokens verbo) = [1; 2; 4; 7; 5]
      /\ crescente (map indice (tokens verbo)) = false
      /\ Trecho_str verbo = "arrived with man smiled yesterday"
      /\ map indice (tokens (ordenar verbo)) = [1; 2; 4; 5; 7].
Proof.
  intros n.
  assert (H4 : exists verbo,
             obterVerboRelacionadoAoSujeito 4 chegou
               (mkTrecho [tk "she" 0 "PRON" (Some ("nsubj", 1))])
             = Ok (Some verbo)
             /\ map indice (tokens verbo) = [1; 2; 4; 7; 5]
             /\ crescente (map indice (tokens verbo)) = false
             /\ Trecho_str verbo = "arrived with man smiled yesterday"
             /\ map indice (tokens (ordenar verbo)) = [1; 2; 4; 5; 7]).
  { eexists. split; [vm_compute; reflexivity|].
    repeat split; reflexivity. }
  destruct H4 as (verbo & Hrun & Hrest). exists verbo. split; [|exact Hrest].
  rewrite (obterVerbo_mono chegou _ 4 (4 + n)); [exact Hrun|lia|].
  rewrite Hrun. discriminate.
Qed.

(** ** The last token and the complements of the verb *)

(** No token the complements hold stands at the last position. *)
Lemma obterComplementares_nunca_ultimo (sentenca : Sentenca) :
  forall n raiz l,
    obterComplementaresDoVerbo n sentenca raiz = Ok l ->
    forall token,
      In token l ->
      exists i,
        i < length (s_tokens sentenca) - 1
        /\ s_tokens sentenca !! i = Some token.
Proof.
  induction n as [|n IH]; intros raiz l Hrun; simpl in Hrun; [discriminate|].
  pose (P := fun acc : list Token =>
               forall token,
                 In token acc ->
                 exists i,
                   i < length (s_tokens sentenca) - 1
                   /\ s_tokens sentenca !! i = Some token).
  change (P l). revert Hrun.
  apply para_invariante; [intros token []|].
  intros a i a' Hi Ha Hbody token Hin.
  apply In_range in Hi.
  apply bind_ok in Hbody as (filho & Hitem & Hbody).
  apply item_ok in Hitem.
  destruct (pai_e filho (indice raiz)
            && negb (relacao_em filho RELACOES_OBJETO)).
  - apply bind_ok in Hbody as (sub & Hsub & Hbody).
    injection Hbody as <-.
    rewrite !in_app_iff in Hin. destruct Hin as [[Hin|Hin]|Hin].
    + auto.
    + destruct Hin as [<-|[]]. exists i. split; [lia|exact Hitem].
    + eapply IH; eauto.
  - injection Hbody as <-. auto.
Qed.

(** C6 fails on the code: the loop of the complements stops one position
    before the end.  In [corre] the adverb at the last index hangs from the
    verb, lies to its right and is no object, yet the complements are empty
    and the verb renders as "runs"; the rightward walk, whose loop runs to
    the end, does return it. *)
Theorem obterComplementares_corre :
  forall n,
    s_tokens corre !! 2 = Some (tk "fast" 2 "ADV" (Some ("advmod", 1)))
    /\ pai_e (tk "fast" 2 "ADV" (Some ("advmod", 1)))
             (indice (tk "runs" 1 "VERB" None)) = true
    /\ relacao_em (tk "fast" 2 "ADV" (Some ("advmod", 1))) RELACOES_OBJETO
       = false
    /\ obterComplementaresDoVerbo (1 + n) corre (tk "runs" 1 "VERB" None)
       = Ok []
    /\ obterDescendentesDaDireita (1 + n) corre (tk "runs" 1 "VERB" None)
       = Ok [tk "fast" 2 "ADV" (Some ("advmod", 1))]
    /\ (seja svos <- extrairSVOs (2 + n) corre em
        Ok (map (fun svo => Trecho_str <$> verbo svo) svos))
       = Ok [Some "runs"].
Proof.
  intros n. split; [reflexivity|]. split; [reflexivity|].
  split; [reflexivity|]. split; [|split].
  - rewrite (obterComplementares_mono corre 1 (1 + n)); [reflexivity|lia|].
    vm_compute. discriminate.
  - rewrite (obterDescendentesDaDireita_mono corre 1 (1 + n));
      [reflexivity|lia|].
    vm_compute. discriminate.
  - rewrite (extrairSVOs_mono corre 2 (2 + n)); [reflexivity|lia|].
    vm_compute. discriminate.
Qed.

(** ** The rightward walk *)

Lemma numerada_lookup (l : list Token) :
  forall k i token,
    numerada k l = true -> l !! i = Some token -> indice token = k + i.
Proof.
  induction l as [|u l IH]; intros k i token Hn Hl; [discriminate|].
  simpl in Hn. apply andb_true_iff in Hn as [Hu Hn].
  destruct i as [|i]; simpl in Hl.
  - injection Hl as <-. apply Nat.eqb_eq in Hu. lia.
  - rewrite (IH (S k) i token Hn Hl). lia.
Qed.

(** The rightward walk of "say" returns "what", left of the root, and that
    of "eats" returns the comma: neither bound reaches below the direct
    dependents. *)
Lemma obterDescendentesDaDireita_esquerda_pontuacao :
  (exists l token,
      obterDescendentesDaDireita 2 disse (tk "say" 3 "VERB" None) = Ok l
      /\ In token l
      /\ indice token < indice (tk "say" 3 "VERB" None))
  /\ (exists l token,
         obterDescendentesDaDireita 3 gosta (tk "eats" 1 "VERB" None) = Ok l
         /\ In token l
         /\ pos token = "PUNCT").
Proof.
  split.
  - eexists. exists (tk "what" 0 "PRON" (Some ("dobj", 6))).
    split; [vm_compute; reflexivity|]. split; [|simpl; lia].
    simpl. tauto.
  - eexists. exists (tk "," 3 "PUNCT" (Some ("punct", 2))).
    split; [vm_compute; reflexivity|]. split; [|reflexivity].
    simpl. tauto.
Qed.

(** C5, as the code has it: in a normalised sentence every token the
    rightward walk returns is a direct dependent of the root that is not
    punctuation and has an index no smaller than the root's, or a token the
    unrestricted walk returns for such a dependent. *)
Theorem obterDescendentesDaDireita_origem (n : nat) (sentenca : Sentenca)
    (raiz : Token) (l : list Token) :
  normalizada sentenca ->
  obterDescendentesDaDireita n sentenca raiz = Ok l ->
  forall token,
    In token l ->
    filho_direito sentenca raiz token
    \/ exists filho sub,
         filho_direito sentenca raiz filho
         /\ obterDescendentes n sentenca filho = Ok sub
         /\ In token sub.
Proof.
  intros Hnorm Hrun. unfold obterDescendentesDaDireita in Hrun.
  pose (P := fun acc : list Token =>
               forall token,
                 In token acc ->
                 filho_direito sentenca raiz token
                 \/ exists filho sub,
                      filho_direito sentenca raiz filho
                      /\ obterDescendentes n sentenca filho = Ok sub
                      /\ In token sub).
  change (P l). revert Hrun.
  apply para_invariante; [intros token []|].
  intros a i a' Hi Ha Hbody token Hin.
  apply In_range in Hi.
  apply bind_ok in Hbody as (filho & Hitem & Hbody).
  apply item_ok in Hitem.
  destruct (negb (String.eqb (pos filho) "PUNCT")
            && pai_e filho (indice raiz)) eqn:Hcond.
  - apply bind_ok in Hbody as (sub & Hsub & Hbody).
    injection Hbody as <-.
    apply andb_true_iff in Hcond as [Hp Hpai].
    apply negb_true_iff, String.eqb_neq in Hp.
    assert (Hf : filho_direito sentenca raiz filho).
    { repeat split; auto.
      - eapply lookup_In; eauto.
      - rewrite (numerada_lookup _ 0 i filho Hnorm Hitem). simpl. lia. }
    rewrite !in_app_iff in Hin. destruct Hin as [[Hin|Hin]|Hin].
    + auto.
    + destruct Hin as [<-|[]]. now left.
    + right. exists filho, sub. auto.
  - injection Hbody as <-. auto.
Qed.

Lemma obterDescendentesDaDireita_origem_witness :
  filho_direito disse (tk "say" 3 "VERB" None)
    (tk "what" 0 "PRON" (Some ("dobj", 6)))
  \/ exists filho sub,
       filho_direito disse (tk "say" 3 "VERB" None) filho
       /\ obterDescendentes 2 disse filho = Ok sub
       /\ In (tk "what" 0 "PRON" (Some ("dobj", 6))) sub.
Proof.
  apply (obterDescendentesDaDireita_origem 2 disse (tk "say" 3 "VERB" None)
           [tk "ate" 6 "VERB" (Some ("ccomp", 3));
            tk "what" 0 "PRON" (Some ("dobj", 6));
            tk "that" 4 "ADP" (Some ("mark", 6));
            tk "he" 5 "PRON" (Some ("nsubj", 6))]).
  - reflexivity.
  - reflexivity.
  - simpl. tauto.
Defined.

(** ** Cycles and the depth of the recursion *)

Lemma profundidade_mono (sentenca : Sentenca) :
  forall k k' i d,
    profundidade k sentenca i = Some d -> k <= k' ->
    profundidade k' sentenca i = Some d.
Proof.
  induction k as [|k IH]; intros k' i d H Hle; [discriminate|].
  destruct k' as [|k']; [lia|]. simpl in *.
  destruct (s_tokens sentenca !! i) as [token|]; [|discriminate].
  destruct (dependencia token) as [[rel iPai]|]; [|exact H].
  destruct (profundidade k sentenca iPai) as [d'|] eqn:Hd; [|discriminate].
  rewrite (IH k' iPai d' Hd) by lia. exact H.
Qed.

Lemma profundidade_lt (sentenca : Sentenca) :
  forall k i d, profundidade k sentenca i = Some d -> d < k.
Proof.
  induction k as [|k IH]; intros i d H; [discriminate|]. simpl in H.
  destruct (s_tokens sentenca !! i) as [token|]; [|discriminate].
  destruct (dependencia token) as [[rel iPai]|].
  - destruct (profundidade k sentenca iPai) as [d'|] eqn:Hd; [|discriminate].
    injection H as <-. apply IH in Hd. lia.
  - injection H as <-. lia.
Qed.

(** A dependent lies one edge deeper than its head. *)
Lemma profundidade_filho (sentenca : Sentenca) (k j iPai dj : nat)
    (token : Token) (rel : string) :
  s_tokens sentenca !! j = Some token ->
  dependencia token = Some (rel, iPai) ->
  profundidade k sentenca j = Some dj ->
  exists dp, dj = S dp /\ profundidade k sentenca iPai = Some dp.
Proof.
  intros Hj Hdep Hd. destruct k as [|k]; [discriminate|].
  simpl in Hd. rewrite Hj, Hdep in Hd.
  destruct (profundidade k sentenca iPai) as [dp|] eqn:Hp; [|discriminate].
  injection Hd as <-. exists dp. split; [reflexivity|].
  eapply profundidade_mono; eauto.
Qed.

Lemma In_lookup {A : Type} (l : list A) (x : A) :
  In x l -> exists i, l !! i = Some x.
Proof.
  induction l as [|y l IH]; simpl; [tauto|]. intros [->|Hin].
  - now exists 0.
  - destruct (IH Hin) as [i Hi]. now exists (S i).
Qed.

Lemma enraizada_profundidade (sentenca : Sentenca) (i : nat) (token : Token) :
  enraizada sentenca = true ->
  s_tokens sentenca !! i = Some token ->
  exists d, profundidade (length (s_tokens sentenca)) sentenca i = Some d.
Proof.
  intros He Hi. unfold enraizada in He. rewrite forallb_forall in He.
  assert (Hlt : i < length (s_tokens sentenca))
    by (eapply lookup_lt_Some; eauto).
  specialize (He i). rewrite in_seq in He.
  apply bool_decide_eq_true in He; [|lia]. destruct He as [d Hd]. eauto.
Qed.

(** The upward walk stops within the depth of its start. *)
Lemma buscarAscendente_termina (sentenca : Sentenca) (p : string) :
  forall k i folha d,
    s_tokens sentenca !! i = Some folha ->
    profundidade k sentenca i = Some d ->
    forall n, k <= n ->
      exists r, buscarAscendenteComPOSEspecifico n sentenca folha p = Ok r.
Proof.
  induction k as [|k IH]; intros i folha d Hi Hd n Hle; [discriminate|].
  destruct n as [|n]; [lia|]. simpl in *. rewrite Hi in Hd.
  destruct (dependencia folha) as [[rel iPai]|]; [|eauto].
  destruct (profundidade k sentenca iPai) as [d'|] eqn:Hp; [|discriminate].
  assert (Hpai : exists pai, s_tokens sentenca !! iPai = Some pai).
  { destruct k as [|k']; [discriminate|]. simpl in Hp.
    destruct (s_tokens sentenca !! iPai); [eauto|discriminate]. }
  destruct Hpai as [pai Hpai]. unfold item. rewrite Hpai. simpl.
  destruct (String.eqb (pos pai) p); [eauto|].
  eapply IH; eauto. lia.
Qed.

(** The downward walk nests no deeper than the tree below its root. *)
Lemma obterDescendentes_termina (sentenca : Sentenca) :
  normalizada sentenca -> enraizada sentenca = true ->
  forall m raiz,
    (forall d,
        profundidade (length (s_tokens sentenca)) sentenca (indice raiz)
        = Some d ->
        length (s_tokens sentenca) <= d + m) ->
    forall n, m < n -> exists l, obterDescendentes n sentenca raiz = Ok l.
Proof.
  intros Hnorm Henr.
  induction m as [|m IH]; intros raiz Hraiz n Hn;
    (destruct n as [|n]; [lia|]); simpl; apply para_total;
    intros a x Hin; destruct (pai_e x (indice raiz)) eqn:Hpai; eauto;
    destruct (In_lookup _ _ Hin) as [j Hj];
    destruct (enraizada_profundidade _ _ _ Henr Hj) as [dj Hdj];
    assert (Hx : indice x = j)
      by (rewrite (numerada_lookup _ 0 j x Hnorm Hj); reflexivity);
    unfold pai_e in Hpai;
    destruct (dependencia x) as [[rel iPai]|] eqn:Hdep; try discriminate;
    apply Nat.eqb_eq in Hpai; subst iPai;
    destruct (profundidade_filho _ _ _ _ _ _ _ Hj Hdep Hdj)
      as (dp & -> & Hdp);
    assert (Hlt := profundidade_lt _ _ _ _ Hdj);
    specialize (Hraiz dp Hdp).
  - lia.
  - destruct (IH x) with (n := n) as [sub Hsub]; [|lia|].
    + intros d Hd. rewrite Hx, Hdj in Hd. injection Hd as <-. lia.
    + rewrite Hsub. simpl. eauto.
Qed.

(** A depth for every position leaves no room for a cycle. *)
Lemma subir_profundidade (sentenca : Sentenca) (n : nat) :
  forall k i j d,
    subir k sentenca i = Some j ->
    profundidade n sentenca i = Some d ->
    exists d', profundidade n sentenca j = Some d' /\ d = d' + k.
Proof.
  induction k as [|k IH]; intros i j d Hs Hd; simpl in Hs.
  - injection Hs as <-. exists d. split; [exact Hd|lia].
  - destruct (s_tokens sentenca !! i) as [token|] eqn:Hi; [|discriminate].
    destruct (dependencia token) as [[rel iPai]|] eqn:Hdep; [|discriminate].
    destruct (profundidade_filho _ _ _ _ _ _ _ Hi Hdep Hd) as (dp & -> & Hdp).
    destruct (IH iPai j dp Hs Hdp) as (d' & Hd' & ->).
    exists d'. split; [exact Hd'|lia].
Qed.

Lemma enraizada_sem_ciclo (sentenca : Sentenca) :
  enraizada sentenca = true -> ~ tem_ciclo sentenca.
Proof.
  intros Henr (i & k & Hk & Hs).
  assert (Hi : exists token, s_tokens sentenca !! i = Some token).
  { destruct k as [|k]; [lia|]. simpl in Hs.
    destruct (s_tokens sentenca !! i); [eauto|discriminate]. }
  destruct Hi as [token Hi].
  destruct (enraizada_profundidade _ _ _ Henr Hi) as [d Hd].
  destruct (subir_profundidade _ _ _ _ _ _ Hs Hd) as (d' & Hd' & ->).
  rewrite Hd in Hd'. injection Hd' as Heq. lia.
Qed.

(** *** Walks that enter a cycle *)

Lemma subir_soma (sentenca : Sentenca) :
  forall a b i, subir (a + b) sentenca i = subir a sentenca i ≫= subir b sentenca.
Proof.
  induction a as [|a IH]; intros b i; simpl; [reflexivity|].
  destruct (s_tokens sentenca !! i) as [token|]; [|reflexivity].
  destruct (dependencia token) as [[rel iPai]|]; [|reflexivity].
  apply IH.
Qed.

Lemma para_sem_raise {A B : Type} (f : B -> A -> res B) (l : list A) :
  (forall a x e, f a x <> Raise e) ->
  forall acc e, para f l acc <> Raise e.
Proof.
  intros Hf. induction l as [|x l IH]; intros acc e; simpl; [discriminate|].
  destruct (f acc x) as [a'| e' |] eqn:Hx; simpl.
  - apply IH.
  - exfalso. eapply Hf; eauto.
  - discriminate.
Qed.

(** A loop whose body cannot raise and exhausts the budget on one of the
    elements exhausts the budget. *)
Lemma para_estouro {A B : Type} (f : B -> A -> res B) (l : list A) (x : A) :
  (forall a y e, f a y <> Raise e) ->
  In x l -> (forall a, f a x = Estouro) ->
  forall acc, para f l acc = Estouro.
Proof.
  intros Hf Hin Hx. induction l as [|y l IH]; intros acc; simpl in *; [tauto|].
  destruct Hin as [->|Hin]; [now rewrite Hx|].
  destruct (f acc y) as [a'| e |] eqn:Hy; simpl; auto.
  exfalso. eapply Hf; eauto.
Qed.

Lemma obterDescendentes_sem_raise (sentenca : Sentenca) :
  forall n raiz e, obterDescendentes n sentenca raiz <> Raise e.
Proof.
  induction n as [|n IH]; intros raiz e; simpl; [discriminate|].
  apply para_sem_raise. intros a x e'.
  destruct (pai_e x (indice raiz)); [|discriminate].
  specialize (IH x). destruct (obterDescendentes n sentenca x); simpl;
    congruence.
Qed.

(** The last edge of a cycle: the position before [i] on it. *)
Lemma ciclo_anterior (sentenca : Sentenca) (i k : nat) :
  0 < k -> subir k sentenca i = Some i ->
  exists j token rel,
    s_tokens sentenca !! j = Some token
    /\ dependencia token = Some (rel, i)
    /\ subir k sentenca j = Some j.
Proof.
  intros Hk Hs. destruct k as [|k]; [lia|].
  replace (S k) with (k + 1) in Hs by lia. rewrite subir_soma in Hs.
  destruct (subir k sentenca i) as [j|] eqn:Hj; [|discriminate].
  simpl in Hs.
  destruct (s_tokens sentenca !! j) as [token|] eqn:Htok; [|discriminate].
  destruct (dependencia token) as [[rel iPai]|] eqn:Hdep; [|discriminate].
  injection Hs as ->. exists j, token, rel. repeat split; auto.
  simpl. now rewrite Htok, Hdep.
Qed.

(** No budget suffices for the downward walk from a token on a cycle. *)
Lemma obterDescendentes_ciclo (sentenca : Sentenca) :
  normalizada sentenca ->
  forall n i k raiz,
    0 < k -> subir k sentenca i = Some i ->
    s_tokens sentenca !! i = Some raiz ->
    obterDescendentes n sentenca raiz = Estouro.
Proof.
  intros Hnorm. induction n as [|n IH]; intros i k raiz Hk Hs Hi;
    [reflexivity|].
  destruct (ciclo_anterior _ _ _ Hk Hs) as (j & token & rel & Hj & Hdep & Hc).
  assert (Hraiz : indice raiz = i)
    by (rewrite (numerada_lookup _ 0 i raiz Hnorm Hi); reflexivity).
  simpl. apply para_estouro with (x := token).
  - intros a y e. destruct (pai_e y (indice raiz)); [|discriminate].
    assert (H := obterDescendentes_sem_raise sentenca n y).
    destruct (obterDescendentes n sentenca y); simpl; congruence.
  - eapply lookup_In; eauto.
  - intros a. unfold pai_e. rewrite Hdep, Hraiz, Nat.eqb_refl.
    now rewrite (IH j k token Hk Hc Hj).
Qed.

(** Nor for the upward walk, unless the cycle holds a token of the POS
    looked for. *)
Lemma buscarAscendente_ciclo (sentenca : Sentenca) (p : string) :
  forall n i k folha,
    0 < k -> subir k sentenca i = Some i ->
    s_tokens sentenca !! i = Some folha ->
    (forall m j token,
        subir m sentenca i = Some j ->
        s_tokens sentenca !! j = Some token -> pos token <> p) ->
    buscarAscendenteComPOSEspecifico n sentenca folha p = Estouro.
Proof.
  induction n as [|n IH]; intros i k folha Hk Hs Hi Hpos; [reflexivity|].
  destruct k as [|k]; [lia|].
  assert (Hs' := Hs). simpl in Hs'. rewrite Hi in Hs'.
  simpl. destruct (dependencia folha) as [[rel iPai]|] eqn:Hdep;
    [|discriminate].
  simpl in Hs'.
  assert (Hum : subir 1 sentenca i = Some iPai)
    by (simpl; now rewrite Hi, Hdep).
  assert (Hpai : exists pai, s_tokens sentenca !! iPai = Some pai).
  { destruct k as [|k]; simpl in Hs'.
    - injection Hs' as ->. eauto.
    - destruct (s_tokens sentenca !! iPai); [eauto|discriminate]. }
  destruct Hpai as [pai Hpai]. unfold item. rewrite Hpai. simpl.
  assert (Hp := Hpos 1 iPai pai Hum Hpai).
  apply String.eqb_neq in Hp. rewrite Hp.
  apply (IH iPai (S k) pai); [lia| |exact Hpai|].
  - replace (S k) with (k + 1) by lia. rewrite subir_soma, Hs'. exact Hum.
  - intros m j token Hm Hj. apply (Hpos (1 + m) j token); auto.
    rewrite subir_soma, Hum. exact Hm.
Qed.

(** In [ciclo] the two tokens are each other's head.  Neither walk returns
    from it, whatever the budget: no error is reported for the tree. *)
Lemma percursos_ciclo_estouro :
  normalizada ciclo
  /\ tem_ciclo ciclo
  /\ forall n,
       obterDescendentes n ciclo (tk "a" 0 "NOUN" (Some ("dep", 1)))
       = Estouro
       /\ buscarAscendenteComPOSEspecifico n ciclo
            (tk "a" 0 "NOUN" (Some ("dep", 1))) "VERB" = Estouro.
Proof.
  assert (Hc : subir 2 ciclo 0 = Some 0) by reflexivity.
  split; [reflexivity|]. split; [exists 0, 2; split; [lia|exact Hc]|].
  intros n. split.
  - apply (obterDescendentes_ciclo ciclo eq_refl n 0 2); auto.
  - apply (buscarAscendente_ciclo ciclo "VERB" n 0 2); auto.
    intros m j token Hm Hj.
    assert (Hpos : forall t, In t (s_tokens ciclo) -> pos t <> "VERB").
    { intros t [<-|[<-|[]]]; discriminate. }
    apply Hpos. eapply lookup_In; eauto.
Qed.

(** In a normalised sentence whose head chains all end in a token without a
    head, the downward walk from any root and the upward walk from any
    token of the sentence return their result as soon as the budget exceeds
    the length of the sentence. *)
Theorem percursos_terminam (sentenca : Sentenca) (n : nat) :
  normalizada sentenca ->
  enraizada sentenca = true ->
  length (s_tokens sentenca) < n ->
  (forall raiz, exists l, obterDescendentes n sentenca raiz = Ok l)
  /\ (forall folha p,
         In folha (s_tokens sentenca) ->
         exists r,
           buscarAscendenteComPOSEspecifico n sentenca folha p = Ok r).
Proof.
  intros Hnorm Henr Hn. split.
  - intros raiz.
    apply (obterDescendentes_termina sentenca Hnorm Henr
             (length (s_tokens sentenca))); [|exact Hn].
    intros d _. lia.
  - intros folha p Hin.
    destruct (In_lookup _ _ Hin) as [i Hi].
    destruct (enraizada_profundidade _ _ _ Henr Hi) as [d Hd].
    eapply buscarAscendente_termina; eauto. lia.
Qed.

Lemma percursos_terminam_witness :
  (forall raiz, exists l, obterDescendentes 6 gato raiz = Ok l)
  /\ (forall folha p,
         In folha (s_tokens gato) ->
         exists r, buscarAscendenteComPOSEspecifico 6 gato folha p = Ok r).
Proof.
  apply (percursos_terminam gato 6).
  - reflexivity.
  - reflexivity.
  - simpl. lia.
Defined.

(** ** The cached instance *)

Section MetaclasseProps.

Variable init_ok : string -> Mundo -> bool.

(** A call returns the object the dict holds for the class afterwards. *)
Lemma Singleton_call_guarda (cls : string) (w w1 : Mundo) (o : nat) :
  Singleton_call init_ok cls w = Ok (o, w1) ->
  _instances w1 !! cls = Some o.
Proof.
  unfold Singleton_call. intros H.
  apply bind_ok in H as (w' & _ & H).
  destruct (_instances w' !! cls) eqn:Hl; [|discriminate].
  now injection H as <- <-.
Qed.

(** A call runs the initialiser of the class at most once. *)
Lemma Singleton_call_inicia (cls : string) (w w1 : Mundo) (o : nat) :
  Singleton_call init_ok cls w = Ok (o, w1) ->
  vezes_iniciada cls w1 <= S (vezes_iniciada cls w).
Proof.
  unfold Singleton_call. intros H.
  apply bind_ok in H as (w' & Hw' & H).
  destruct (_instances w' !! cls) eqn:Hl; [|discriminate].
  injection H as _ <-.
  destruct (_instances w !! cls) eqn:Hc.
  - injection Hw' as <-. lia.
  - apply bind_ok in Hw' as ([o2 w2] & Ht & Hw'). injection Hw' as <-.
    unfold type_call in Ht. destruct (init_ok cls w); [|discriminate].
    injection Ht as <- <-. unfold vezes_iniciada. simpl.
    rewrite List.filter_app, length_app. simpl.
    destruct (String.eqb cls cls); simpl; lia.
Qed.

(** A class that is in the dict is not constructed again. *)
Lemma Singleton_call_cache (cls : string) (w : Mundo) (o : nat) :
  _instances w !! cls = Some o ->
  Singleton_call init_ok cls w = Ok (o, w).
Proof. unfold Singleton_call. intros H. rewrite H. simpl. now rewrite H. Qed.

(** A call for another class leaves the entry and the initialisations of
    this one alone. *)
Lemma Singleton_call_outra (cls c : string) (w w1 : Mundo) (o o' : nat) :
  c <> cls ->
  _instances w !! cls = Some o ->
  Singleton_call init_ok c w = Ok (o', w1) ->
  _instances w1 !! cls = Some o
  /\ vezes_iniciada cls w1 = vezes_iniciada cls w.
Proof.
  intros Hne Hcls. unfold Singleton_call. intros H.
  apply bind_ok in H as (w' & Hw' & H).
  destruct (_instances w' !! c) eqn:Hl; [|discriminate].
  injection H as _ <-.
  destruct (_instances w !! c) eqn:Hc.
  - injection Hw' as <-. auto.
  - apply bind_ok in Hw' as ([o2 w2] & Ht & Hw'). injection Hw' as <-.
    unfold type_call in Ht. destruct (init_ok c w); [|discriminate].
    injection Ht as <- <-. simpl. split.
    + rewrite lookup_insert_ne by exact Hne. exact Hcls.
    + unfold vezes_iniciada. simpl. rewrite List.filter_app. simpl.
      assert (Hb : String.eqb cls c = false)
        by (apply String.eqb_neq; congruence).
      rewrite Hb, length_app. simpl. lia.
Qed.

Lemma chamadas_preserva (cls : string) (o : nat) :
  forall cs w os w2,
    _instances w !! cls = Some o ->
    chamadas init_ok cs w = Ok (os, w2) ->
    _instances w2 !! cls = Some o
    /\ vezes_iniciada cls w2 = vezes_iniciada cls w
    /\ forall k, cs !! k = Some cls -> os !! k = Some o.
Proof.
  induction cs as [|c cs IH]; intros w os w2 Hcls Hrun; simpl in Hrun.
  - injection Hrun as <- <-. repeat split; auto. intros k Hk. discriminate.
  - apply bind_ok in Hrun as ([o1 w1] & Hc & Hrun).
    apply bind_ok in Hrun as ([os' w2'] & Hcs & Hrun).
    simpl in *. injection Hrun as <- <-.
    destruct (decide (c = cls)) as [->|Hne].
    + rewrite (Singleton_call_cache cls w o Hcls) in Hc.
      injection Hc as <- <-.
      destruct (IH w os' w2' Hcls Hcs) as (H1 & H2 & H3).
      repeat split; auto. intros [|k] Hk; simpl in *; auto.
    + destruct (Singleton_call_outra cls c w w1 o o1 Hne Hcls Hc)
        as [Hcls1 Hv1].
      destruct (IH w1 os' w2' Hcls1 Hcs) as (H1 & H2 & H3).
      repeat split; auto; [congruence|].
      intros [|k] Hk; simpl in *; auto. congruence.
Qed.

Lemma chamadas_repetidas (cls : string) (o : nat) (w : Mundo) :
  _instances w !! cls = Some o ->
  forall n, chamadas init_ok (repeat cls n) w = Ok (repeat o n, w).
Proof.
  intros Hcls. induction n as [|n IH]; simpl; [reflexivity|].
  rewrite (Singleton_call_cache cls w o Hcls). simpl.
  rewrite IH. reflexivity.
Qed.

(** C10: once a constructor call of a class has returned an instance,
    having run the initialiser at most once, every later call for that
    class returns the same instance: any number of repeated calls returns
    it and leaves the state as it was, and in any sequence of constructor
    calls that returns, each call for the class returns it and the class is
    not initialised again. *)
Theorem Singleton_call_idempotente (cls : string) (w w1 : Mundo) (o : nat) :
  Singleton_call init_ok cls w = Ok (o, w1) ->
  vezes_iniciada cls w1 <= S (vezes_iniciada cls w)
  /\ (forall n, chamadas init_ok (repeat cls n) w1 = Ok (repeat o n, w1))
  /\ forall cs os w2,
       chamadas init_ok cs w1 = Ok (os, w2) ->
       (forall k, cs !! k = Some cls -> os !! k = Some o)
       /\ vezes_iniciada cls w2 = vezes_iniciada cls w1.
Proof.
  intros H. split; [eapply Singleton_call_inicia; eauto|].
  apply Singleton_call_guarda in H. split.
  - apply chamadas_repetidas. exact H.
  - intros cs os w2 Hrun.
    destruct (chamadas_preserva cls o cs w1 os w2 H Hrun) as (_ & H2 & H3).
    auto.
Qed.

End MetaclasseProps.

Lemma Singleton_call_idempotente_witness :
  vezes_iniciada PLN mundo_pln <= S (vezes_iniciada PLN mundo_inicial)
  /\ (forall n,
      chamadas (fun _ _ => true) (repeat PLN n) mundo_pln
      = Ok (repeat 0 n, mundo_pln))
  /\ forall cs os w2,
       chamadas (fun _ _ => true) cs mundo_pln = Ok (os, w2) ->
       (forall k, cs !! k = Some PLN -> os !! k = Some 0)
       /\ vezes_iniciada PLN w2 = vezes_iniciada PLN mundo_pln.
Proof.
  apply (Singleton_call_idempotente (fun _ _ => true) PLN mundo_inicial).
  reflexivity.
Defined.

(** * Further properties of the code *)

(** ** Sorting a phrase (Trecho.ordenar) *)

Lemma crescente_Sorted (l : list nat) :
  crescente l = true <-> Sorted le l.
Proof.
  induction l as [|a l IH]; [split; auto|].
  destruct l as [|b l].
  - split; auto.
  - change (crescente (a :: b :: l)) with ((a <=? b) && crescente (b :: l)).
    rewrite andb_true_iff, IH, Nat.leb_le. split.
    + intros [Hab Hs]. constructor; auto.
    + intros Hs. inversion Hs as [|? ? Hs' Hd]; subst.
      inversion Hd; subst. auto.
Qed.

Lemma crescente_forte (l : list nat) :
  crescente l = true <-> StronglySorted le l.
Proof.
  rewrite crescente_Sorted. split.
  - apply Sorted_StronglySorted. intros x y z. lia.
  - apply StronglySorted_Sorted.
Qed.

Lemma inserir_perm (t : Token) (l : list Token) :
  Permutation (inserir t l) (t :: l).
Proof.
  induction l as [|u l IH]; simpl; [reflexivity|].
  destruct (indice t <? indice u); [reflexivity|].
  rewrite IH. apply perm_swap.
Qed.

Lemma inserir_forte (t : Token) (l : list Token) :
  StronglySorted le (map indice l) ->
  StronglySorted le (map indice (inserir t l)).
Proof.
  induction l as [|u l IH]; intros Hs; simpl.
  - repeat constructor.
  - inversion Hs as [|? ? Hs' Hall]; subst.
    destruct (indice t <? indice u) eqn:Hlt.
    + apply Nat.ltb_lt in Hlt. simpl. constructor; [exact Hs|].
      constructor; [lia|].
      eapply List.Forall_impl; [|exact Hall]. simpl. intros a Ha. lia.
    + apply Nat.ltb_ge in Hlt. simpl. constructor; [auto|].
      assert (Hp : Permutation (map indice (inserir t l))
                     (indice t :: map indice l))
        by (change (indice t :: map indice l) with (map indice (t :: l));
            apply Permutation_map, inserir_perm).
      rewrite Hp. constructor; auto.
Qed.

Lemma filter_vazio {A : Type} (f : A -> bool) (l : list A) :
  (forall x, In x l -> f x = false) -> List.filter f l = [].
Proof.
  induction l as [|y l IH]; intros H; simpl; [reflexivity|].
  rewrite (H y (or_introl eq_refl)). apply IH. intros x Hx. apply H. now right.
Qed.

(** Among sorted tokens a new one goes behind those of its own index. *)
Lemma inserir_com_indice (k : nat) (t : Token) (l : list Token) :
  StronglySorted le (map indice l) ->
  com_indice k (inserir t l)
  = com_indice k l ++ (if indice t =? k then [t] else []).
Proof.
  unfold com_indice. induction l as [|u l IH]; intros Hs; simpl.
  - reflexivity.
  - inversion Hs as [|? ? Hs' Hall]; subst.
    destruct (indice t <? indice u) eqn:Hlt.
    + apply Nat.ltb_lt in Hlt. simpl.
      destruct (indice t =? k) eqn:Htk.
      * apply Nat.eqb_eq in Htk.
        assert (Hu : (indice u =? k) = false) by (apply Nat.eqb_neq; lia).
        rewrite Hu.
        assert (Hnil : List.filter (fun u0 => indice u0 =? k) l = []).
        { apply filter_vazio. intros x Hx. apply Nat.eqb_neq.
          rewrite List.Forall_forall in Hall.
          specialize (Hall (indice x) (in_map indice _ _ Hx)). lia. }
        rewrite Hnil. reflexivity.
      * now rewrite app_nil_r.
    + simpl. rewrite (IH Hs').
      destruct (indice u =? k); reflexivity.
Qed.

Lemma sorted_indice_fold (l : list Token) :
  forall acc,
    StronglySorted le (map indice acc) ->
    let r := fold_left (fun a t => inserir t a) l acc in
    StronglySorted le (map indice r)
    /\ Permutation r (acc ++ l)
    /\ forall k, com_indice k r = com_indice k acc ++ com_indice k l.
Proof.
  induction l as [|t l IH]; intros acc Hacc; simpl.
  - rewrite app_nil_r. repeat split; auto.
    intros k. unfold com_indice. simpl. now rewrite app_nil_r.
  - destruct (IH (inserir t acc) (inserir_forte t acc Hacc))
      as (Hs & Hp & Hk).
    split; [exact Hs|]. split.
    + rewrite Hp, inserir_perm. apply Permutation_middle.
    + intros k. rewrite Hk, inserir_com_indice by exact Hacc.
      unfold com_indice at 4. simpl.
      rewrite <- app_assoc. destruct (indice t =? k); reflexivity.
Qed.

(** X1: the sorted phrase holds the same tokens in ascending order of
    index, and tokens of one index keep the order they had. *)
Theorem ordenar_estavel (t : Trecho) :
  crescente (map indice (tokens (ordenar t))) = true
  /\ Permutation (tokens (ordenar t)) (tokens t)
  /\ forall k,
       com_indice k (tokens (ordenar t)) = com_indice k (tokens t).
Proof.
  destruct (sorted_indice_fold (tokens t) [] (SSorted_nil _))
    as (Hs & Hp & Hk).
  split; [apply crescente_forte; exact Hs|]. split; [exact Hp|].
  intros k. apply Hk.
Qed.

Lemma forte_app (l1 l2 : list nat) :
  StronglySorted le (l1 ++ l2) ->
  forall a b, In a l1 -> In b l2 -> a <= b.
Proof.
  induction l1 as [|x l1 IH]; intros Hs a b Ha Hb; simpl in *; [tauto|].
  inversion Hs as [|? ? Hs' Hall]; subst.
  destruct Ha as [->|Ha]; [|eauto].
  rewrite List.Forall_forall in Hall. apply Hall.
  apply in_or_app. now right.
Qed.

Lemma inserir_fim (t : Token) (l : list Token) :
  (forall u, In u l -> indice u <= indice t) -> inserir t l = l ++ [t].
Proof.
  induction l as [|u l IH]; intros H; simpl; [reflexivity|].
  assert (Hu : (indice t <? indice u) = false)
    by (apply Nat.ltb_ge, H; now left).
  rewrite Hu, IH; [reflexivity|]. intros x Hx. apply H. now right.
Qed.

Lemma sorted_indice_ordenado (l : list Token) :
  forall acc,
    StronglySorted le (map indice (acc ++ l)) ->
    fold_left (fun a t => inserir t a) l acc = acc ++ l.
Proof.
  induction l as [|t l IH]; intros acc Hs; simpl; [now rewrite app_nil_r|].
  rewrite inserir_fim.
  - rewrite IH; rewrite <- app_assoc; [reflexivity|exact Hs].
  - intros u Hu. rewrite map_app in Hs.
    apply (forte_app _ _ Hs); [now apply in_map|]. simpl. now left.
Qed.

(** X2: a phrase whose tokens already stand in ascending order of index is
    left as it is. *)
Theorem ordenar_ordenado (t : Trecho) :
  crescente (map indice (tokens t)) = true -> ordenar t = t.
Proof.
  intros H. apply crescente_forte in H.
  destruct t as [l]. unfold ordenar, sorted_indice. simpl in *.
  now rewrite (sorted_indice_ordenado l []).
Qed.

Lemma ordenar_ordenado_witness : ordenar virgula = virgula.
Proof. apply (ordenar_ordenado virgula). reflexivity. Defined.

(** X3: sorting twice is sorting once, so a phrase renders the same however
    often it is sorted. *)
Theorem ordenar_idempotente (t : Trecho) :
  ordenar (ordenar t) = ordenar t
  /\ Trecho_str (ordenar (ordenar t)) = Trecho_str (ordenar t).
Proof.
  assert (H : ordenar (ordenar t) = ordenar t).
  { destruct (sorted_indice_fold (tokens t) [] (SSorted_nil _))
      as (Hs & _ & _).
    unfold ordenar at 1. unfold sorted_indice.
    rewrite (sorted_indice_ordenado (tokens (ordenar t)) []); [|exact Hs].
    destruct (ordenar t); reflexivity. }
  split; [exact H|now rewrite H].
Qed.

(** ** Rendering without punctuation *)

Lemma Trecho_str_lista (l : list Token) :
  Trecho_str (mkTrecho l) = juntar l.
Proof.
  unfold Trecho_str. simpl. destruct l as [|token l]; [reflexivity|].
  simpl. unfold str_passo at 2.
  assert (H0 : (if String.eqb (pos token) "PUNCT" then sem_ultimo "" else "")
               = "") by (destruct (String.eqb _ _); reflexivity).
  rewrite H0. simpl. rewrite str_passo_fold. apply sem_ultimo_espaco.
Qed.

Lemma juntar_concat (l : list Token) :
  (forall u, In u l -> pos u <> "PUNCT") ->
  juntar l = String.concat " " (map texto l).
Proof.
  induction l as [|x l IH]; intros H; [reflexivity|].
  destruct l as [|y l]; [simpl; apply append_vazio_r|].
  change (String.concat " " (map texto (x :: y :: l)))
    with (texto x +:+ " " +:+ String.concat " " (map texto (y :: l))).
  rewrite <- IH by (intros u Hu; apply H; now right).
  simpl. unfold separador.
  assert (Hy : String.eqb (pos y) "PUNCT" = false)
    by (apply String.eqb_neq, H; right; now left).
  now rewrite Hy.
Qed.

(** X4: a phrase without punctuation tokens renders as its surface forms
    joined by single spaces, as [" ".join] would. *)
Theorem Trecho_str_sem_pontuacao (t : Trecho) :
  (forall u, In u (tokens t) -> pos u <> "PUNCT") ->
  Trecho_str t = String.concat " " (map texto (tokens t)).
Proof.
  intros H. destruct t as [l]. rewrite Trecho_str_lista.
  now apply juntar_concat.
Qed.

Lemma Trecho_str_sem_pontuacao_witness :
  Trecho_str (mkTrecho [tk "the" 0 "DET" (Some ("det", 1));
                        tk "cat" 1 "NOUN" (Some ("nsubj", 2))])
  = String.concat " " ["the"; "cat"].
Proof.
  apply (Trecho_str_sem_pontuacao
           (mkTrecho [tk "the" 0 "DET" (Some ("det", 1));
                      tk "cat" 1 "NOUN" (Some ("nsubj", 2))])).
  intros u [<-|[<-|[]]]; discriminate.
Defined.

(** ** The errors of the classifier *)

(** X5: the classifier raises exactly on the empty sentence and on a
    sentence made of one adposition other than "if", and then IndexError;
    on every other sentence it returns one of the two types. *)
Theorem obterTipo_excecao (sentenca : Sentenca) :
  (obterTipoDaSentenca sentenca = Raise IndexError
   <-> s_tokens sentenca = []
       \/ exists token,
            s_tokens sentenca = [token]
            /\ pos token = "ADP" /\ texto token <> "if")
  /\ (obterTipoDaSentenca sentenca = Raise IndexError
      \/ obterTipoDaSentenca sentenca = Ok TIPO_SENTENCA_DECLARATIVA
      \/ obterTipoDaSentenca sentenca = Ok TIPO_SENTENCA_CONDICIONAL).
Proof.
  unfold obterTipoDaSentenca.
  destruct (s_tokens sentenca) as [|t0 [|t1 l]]; simpl.
  - split; [|auto]. split; auto.
  - destruct (String.eqb (pos t0) "ADP") eqn:Hp.
    + destruct (String.eqb (texto t0) "if") eqn:Ht.
      * split; [|auto]. split; [discriminate|].
        intros [H|(token & H & _ & Hn)]; [discriminate|].
        injection H as <-. apply String.eqb_eq in Ht. contradiction.
      * split; [|auto]. split; [|reflexivity].
        intros _. right. exists t0.
        apply String.eqb_eq in Hp. apply String.eqb_neq in Ht. auto.
    + split; [|auto]. split; [discriminate|].
      intros [H|(token & H & Ha & _)]; [discriminate|].
      injection H as <-. apply String.eqb_neq in Hp. contradiction.
  - split.
    + split.
      * destruct (String.eqb (pos t0) "ADP"); [|discriminate].
        destruct (String.eqb (texto t0) "if"); [discriminate|].
        destruct (String.eqb (texto t1) "case"); discriminate.
      * intros [H|(token & H & _)]; discriminate.
    + destruct (String.eqb (pos t0) "ADP"); [|auto].
      destruct (String.eqb (texto t0) "if"); [auto|].
      destruct (String.eqb (texto t1) "case"); auto.
Qed.

(** ** Loops that collect one result per element *)

Lemma para_snoc {A B : Type} (g : A -> res B)
    (f : list B -> A -> res (list B)) :
  (forall acc x, f acc x = seja y <- g x em Ok (acc ++ [y])) ->
  forall l acc r,
    para f l acc = Ok r
    <-> exists ys, Forall2 (fun x y => g x = Ok y) l ys /\ r = acc ++ ys.
Proof.
  intros Hf. induction l as [|x l IH]; intros acc r; simpl.
  - split.
    + intros H. injection H as <-. exists []. split; [constructor|].
      now rewrite app_nil_r.
    + intros (ys & Hys & ->). inversion Hys; subst. now rewrite app_nil_r.
  - rewrite Hf. split.
    + intros H. destruct (g x) as [y| |] eqn:Hx; simpl in H; try discriminate.
      apply IH in H as (ys & Hys & ->). exists (y :: ys).
      split; [now constructor|]. now rewrite <- app_assoc.
    + intros (ys & Hys & ->). inversion Hys as [|? y ? ys' Hx Hrest]; subst.
      rewrite Hx. simpl. apply IH. exists ys'. split; [exact Hrest|].
      now rewrite <- app_assoc.
Qed.

Lemma Forall2_compoe {A B C : Type} (P : A -> B -> Prop) (Q : B -> C -> Prop)
    (l1 : list A) (l2 : list B) (l3 : list C) :
  Forall2 P l1 l2 -> Forall2 Q l2 l3 ->
  Forall2 (fun a c => exists b, P a b /\ Q b c) l1 l3.
Proof.
  intros H. revert l3. induction H as [|a b l1 l2 Hab H IH]; intros l3 HQ.
  - inversion HQ. constructor.
  - inversion HQ as [|? c ? l3' Hbc HQ']; subst. constructor; eauto.
Qed.

(** ** The records of a sentence *)

Lemma extrairSujeitos_snoc (n : nat) (sentenca : Sentenca)
    (sujeitos : list Trecho) :
  extrairSujeitos n sentenca = Ok sujeitos
  <-> Forall2 (fun token suj => sujeito_de n sentenca token = Ok suj)
        (List.filter e_nsubj (s_tokens sentenca)) sujeitos.
Proof.
  unfold extrairSujeitos.
  rewrite (para_snoc (sujeito_de n sentenca)).
  - split; [intros (ys & H & ->); exact H|intros H; eauto].
  - intros acc x. unfold sujeito_de.
    destruct (obterDescendentes n sentenca x); reflexivity.
Qed.

Lemma extrairSVOs_snoc (n : nat) (sentenca : Sentenca) (l : list SVO) :
  extrairSVOs n sentenca = Ok l
  <-> exists sujeitos,
        extrairSujeitos n sentenca = Ok sujeitos
        /\ Forall2 (fun suj svo => svo_de n sentenca suj = Ok svo) sujeitos l.
Proof.
  unfold extrairSVOs. split.
  - intros H. apply bind_ok in H as (sujeitos & Hs & H).
    exists sujeitos. split; [exact Hs|].
    apply (para_snoc (svo_de n sentenca)) in H as (ys & H & ->); [exact H|].
    intros acc x. unfold svo_de.
    destruct (obterVerboRelacionadoAoSujeito n sentenca x) as [v| |];
      simpl; try reflexivity.
    destruct (obterObjetosRelacionadosAoVerbo n sentenca v
                RELACOES_OBJETO_DIRETO) as [od| |]; simpl; try reflexivity.
    destruct (obterObjetosRelacionadosAoVerbo n sentenca v
                RELACOES_OBJETO_INDIRETO) as [oi| |]; reflexivity.
  - intros (sujeitos & Hs & H). rewrite Hs. simpl.
    apply (para_snoc (svo_de n sentenca)); [|eauto].
    intros acc x. unfold svo_de.
    destruct (obterVerboRelacionadoAoSujeito n sentenca x) as [v| |];
      simpl; try reflexivity.
    destruct (obterObjetosRelacionadosAoVerbo n sentenca v
                RELACOES_OBJETO_DIRETO) as [od| |]; simpl; try reflexivity.
    destruct (obterObjetosRelacionadosAoVerbo n sentenca v
                RELACOES_OBJETO_INDIRETO) as [oi| |]; reflexivity.
Qed.

(** X6: the list of records is empty exactly when no token of the sentence
    is a nominal subject, and then no recursion budget is needed. *)
Theorem extrairSVOs_vazio (n : nat) (sentenca : Sentenca) :
  extrairSVOs n sentenca = Ok []
  <-> List.filter e_nsubj (s_tokens sentenca) = [].
Proof.
  rewrite extrairSVOs_snoc. split.
  - intros (sujeitos & Hs & H). inversion H; subst.
    apply extrairSujeitos_snoc in Hs. now inversion Hs.
  - intros H. exists []. split; [|constructor].
    apply extrairSujeitos_snoc. rewrite H. constructor.
Qed.

Lemma ordenar_crescente (t : Trecho) :
  crescente (map indice (tokens (ordenar t))) = true.
Proof.
  destruct (sorted_indice_fold (tokens t) [] (SSorted_nil _)) as (Hs & _ & _).
  apply crescente_forte. exact Hs.
Qed.

Lemma ordenar_In (t : Trecho) (x : Token) :
  In x (tokens (ordenar t)) <-> In x (tokens t).
Proof.
  destruct (sorted_indice_fold (tokens t) [] (SSorted_nil _)) as (_ & Hp & _).
  simpl in Hp. split; apply Permutation_in; [exact Hp|now symmetry].
Qed.

(** What object extraction returns, once the verb phrase is there. *)
Lemma obterObjetos_ok (n : nat) (sentenca : Sentenca) (verbo : option Trecho)
    (relacoes : list string) (r : option Trecho) :
  obterObjetosRelacionadosAoVerbo n sentenca verbo relacoes = Ok r ->
  exists v raiz descendentes,
    verbo = Some v
    /\ verboPrincipal v = Some raiz
    /\ obterDescendentesDaDireita n sentenca raiz = Ok descendentes
    /\ let objetos :=
         List.filter (fun token => relacao_em token relacoes) descendentes in
       match r with
       | None => objetos = []
       | Some tr =>
           objetos <> []
           /\ exists complementares,
                para (fun c objeto =>
                        seja d <- obterDescendentes n sentenca objeto em
                        Ok (c ++ d)) objetos [] = Ok complementares
                /\ tr = ordenar (mkTrecho (objetos ++ complementares))
       end.
Proof.
  unfold obterObjetosRelacionadosAoVerbo. intros H.
  destruct verbo as [v|]; [|discriminate]. simpl in H.
  destruct (verboPrincipal v) as [raiz|] eqn:Hraiz; [|discriminate].
  simpl in H. apply bind_ok in H as (descendentes & Hd & H).
  exists v, raiz, descendentes. repeat split; auto.
  destruct (List.filter _ descendentes) as [|o objetos] eqn:Hobj; simpl in *.
  - now injection H as <-.
  - apply bind_ok in H as (complementares & Hc & H). injection H as <-.
    split; [discriminate|]. eauto.
Qed.

(** X7: when the records of a sentence are returned there is one for each
    nominal-subject token, in their order; its subject phrase holds that
    token and is sorted, its verb is present, and an object phrase that is
    present is sorted. *)
Theorem extrairSVOs_registros (n : nat) (sentenca : Sentenca)
    (l : list SVO) :
  extrairSVOs n sentenca = Ok l ->
  Forall2 (fun token svo =>
             In token (tokens (sujeito svo))
             /\ crescente (map indice (tokens (sujeito svo))) = true
             /\ (exists v, verbo svo = Some v)
             /\ (forall tr,
                    objetoDireto svo = Some tr \/ objetoIndireto svo = Some tr ->
                    crescente (map indice (tokens tr)) = true))
          (List.filter e_nsubj (s_tokens sentenca)) l.
Proof.
  intros H. apply extrairSVOs_snoc in H as (sujeitos & Hs & H).
  apply extrairSujeitos_snoc in Hs.
  eapply Forall2_impl; [exact (Forall2_compoe _ _ _ _ _ Hs H)|].
  intros token svo (suj & Hsuj & Hsvo). simpl in *.
  unfold sujeito_de in Hsuj. apply bind_ok in Hsuj as (d & _ & Hsuj).
  injection Hsuj as <-.
  unfold svo_de in Hsvo.
  apply bind_ok in Hsvo as (v & _ & Hsvo).
  apply bind_ok in Hsvo as (od & Hod & Hsvo).
  apply bind_ok in Hsvo as (oi & Hoi & Hsvo).
  injection Hsvo as <-.
  split; [apply (proj2 (ordenar_In (mkTrecho (token :: d)) token)); now left|].
  split; [apply (ordenar_crescente (mkTrecho (token :: d)))|].
  destruct (obterObjetos_ok _ _ _ _ _ Hod) as (v' & r' & d' & -> & _).
  split; [eauto|].
  intros tr [Htr|Htr]; simpl in Htr; subst.
  - destruct (obterObjetos_ok _ _ _ _ _ Hod)
      as (v1 & r1 & d1 & _ & _ & _ & _ & c & _ & ->).
    apply ordenar_crescente.
  - destruct (obterObjetos_ok _ _ _ _ _ Hoi)
      as (v1 & r1 & d1 & _ & _ & _ & _ & c & _ & ->).
    apply ordenar_crescente.
Qed.

Lemma extrairSVOs_registros_witness :
  Forall2 (fun token svo =>
             In token (tokens (sujeito svo))
             /\ crescente (map indice (tokens (sujeito svo))) = true
             /\ (exists v, verbo svo = Some v)
             /\ (forall tr,
                    objetoDireto svo = Some tr \/ objetoIndireto svo = Some tr ->
                    crescente (map indice (tokens tr)) = true))
          (List.filter e_nsubj (s_tokens gato)) [svo_gato].
Proof. apply (extrairSVOs_registros 2 gato [svo_gato]). reflexivity. Defined.

(** ** What the downward walk returns *)

(** A loop whose accumulator only grows keeps what each round added. *)
Lemma para_passo {A B : Type} (f : list B -> A -> res (list B))
    (l : list A) :
  (forall a y a', f a y = Ok a' -> incl a a') ->
  forall acc r,
    para f l acc = Ok r ->
    incl acc r
    /\ forall x, In x l -> exists a a', f a x = Ok a' /\ incl a' r.
Proof.
  intros Hf. induction l as [|y l IH]; intros acc r H; simpl in H.
  - injection H as <-. split; [apply incl_refl|]. intros x [].
  - apply bind_ok in H as (a' & Hy & H).
    destruct (IH a' r H) as [Hincl Hall]. split.
    + eapply incl_tran; [eapply Hf; eauto|exact Hincl].
    + intros x [<-|Hx]; eauto.
Qed.

Lemma pai_e_inv (token : Token) (i : nat) :
  pai_e token i = true -> exists rel, dependencia token = Some (rel, i).
Proof.
  unfold pai_e. destruct (dependencia token) as [[rel h]|]; [|discriminate].
  intros H. apply Nat.eqb_eq in H. subst. eauto.
Qed.

Lemma In_posicao (sentenca : Sentenca) (token : Token) :
  normalizada sentenca -> In token (s_tokens sentenca) ->
  s_tokens sentenca !! indice token = Some token.
Proof.
  intros Hnorm Hin. destruct (In_lookup _ _ Hin) as [j Hj].
  now rewrite (numerada_lookup _ 0 j token Hnorm Hj).
Qed.

Lemma subir_um (sentenca : Sentenca) (token : Token) (rel : string)
    (iPai : nat) :
  normalizada sentenca -> In token (s_tokens sentenca) ->
  dependencia token = Some (rel, iPai) ->
  subir 1 sentenca (indice token) = Some iPai.
Proof.
  intros Hnorm Hin Hdep. simpl.
  now rewrite (In_posicao _ _ Hnorm Hin), Hdep.
Qed.

Lemma obterDescendentes_cresce (n : nat) (sentenca : Sentenca)
    (raiz : Token) :
  forall a y a',
    (if pai_e y (indice raiz) then
       seja sub <- obterDescendentes n sentenca y em
       Ok ((a ++ [y]) ++ sub)
     else Ok a) = Ok a' ->
    incl a a'.
Proof.
  intros a y a' H. destruct (pai_e y (indice raiz)).
  - apply bind_ok in H as (sub & _ & H). injection H as <-.
    intros x Hx. rewrite !in_app_iff. auto.
  - injection H as <-. apply incl_refl.
Qed.

(** Every token returned hangs, by one or more edges, from the root. *)
Lemma obterDescendentes_cadeia (sentenca : Sentenca) :
  normalizada sentenca ->
  forall n raiz l,
    obterDescendentes n sentenca raiz = Ok l ->
    forall token,
      In token l ->
      In token (s_tokens sentenca)
      /\ exists k, subir (S k) sentenca (indice token) = Some (indice raiz).
Proof.
  intros Hnorm. induction n as [|n IH]; intros raiz l H; [discriminate|].
  simpl in H.
  pose (P := fun acc : list Token =>
               forall token,
                 In token acc ->
                 In token (s_tokens sentenca)
                 /\ exists k,
                      subir (S k) sentenca (indice token)
                      = Some (indice raiz)).
  change (P l). revert H. apply para_invariante; [intros token []|].
  intros a x a' Hx Ha Hbody token Hin.
  destruct (pai_e x (indice raiz)) eqn:Hpai.
  - apply bind_ok in Hbody as (sub & Hsub & Hbody). injection Hbody as <-.
    apply pai_e_inv in Hpai as [rel Hdep].
    assert (Hum := subir_um _ _ _ _ Hnorm Hx Hdep).
    rewrite !in_app_iff in Hin. destruct Hin as [[Hin|[<-|[]]]|Hin].
    + auto.
    + split; [exact Hx|]. now exists 0.
    + destruct (IH x sub Hsub token Hin) as [Htok [k Hk]].
      split; [exact Htok|]. exists (S k).
      replace (S (S k)) with (S k + 1) by lia.
      now rewrite subir_soma, Hk.
  - injection Hbody as <-. auto.
Qed.

Lemma subir_ultimo (sentenca : Sentenca) (k i r : nat) :
  subir (S k) sentenca i = Some r ->
  exists j filho rel,
    subir k sentenca i = Some j
    /\ s_tokens sentenca !! j = Some filho
    /\ dependencia filho = Some (rel, r).
Proof.
  replace (S k) with (k + 1) by lia. rewrite subir_soma.
  destruct (subir k sentenca i) as [j|]; [|discriminate]. simpl.
  destruct (s_tokens sentenca !! j) as [filho|] eqn:Hf; [|discriminate].
  destruct (dependencia filho) as [[rel iPai]|] eqn:Hdep; [|discriminate].
  intros H. injection H as ->. exists j, filho, rel. auto.
Qed.

(** A direct dependent and what the walk returns for it are returned. *)
Lemma obterDescendentes_filho (n : nat) (sentenca : Sentenca)
    (raiz filho : Token) (rel : string) (l : list Token) :
  obterDescendentes (S n) sentenca raiz = Ok l ->
  In filho (s_tokens sentenca) ->
  dependencia filho = Some (rel, indice raiz) ->
  exists sub,
    obterDescendentes n sentenca filho = Ok sub
    /\ In filho l /\ incl sub l.
Proof.
  intros H Hin Hdep. simpl in H.
  destruct (para_passo _ _ (obterDescendentes_cresce n sentenca raiz) _ _ H)
    as [_ Hall].
  destruct (Hall filho Hin) as (a & a' & Hbody & Hincl).
  unfold pai_e in Hbody. rewrite Hdep, Nat.eqb_refl in Hbody.
  apply bind_ok in Hbody as (sub & Hsub & Hbody). injection Hbody as <-.
  exists sub. split; [exact Hsub|]. split.
  - apply Hincl. rewrite !in_app_iff. left. right. now left.
  - intros x Hx. apply Hincl. rewrite !in_app_iff. now right.
Qed.

(** Every token that hangs from the root is returned. *)
Lemma obterDescendentes_completo (sentenca : Sentenca) :
  normalizada sentenca ->
  forall k n raiz l token,
    obterDescendentes n sentenca raiz = Ok l ->
    In token (s_tokens sentenca) ->
    subir (S k) sentenca (indice token) = Some (indice raiz) ->
    In token l.
Proof.
  intros Hnorm. induction k as [|k IH]; intros n raiz l token H Hin Hs.
  - destruct n as [|n]; [discriminate|].
    apply subir_ultimo in Hs as (j & filho & rel & Hj & Hf & Hdep).
    simpl in Hj. injection Hj as <-.
    rewrite (In_posicao _ _ Hnorm Hin) in Hf. injection Hf as <-.
    destruct (obterDescendentes_filho _ _ _ _ _ _ H Hin Hdep)
      as (sub & _ & Hl & _). exact Hl.
  - destruct n as [|n]; [discriminate|].
    apply subir_ultimo in Hs as (j & filho & rel & Hj & Hf & Hdep).
    assert (Hfin : In filho (s_tokens sentenca)) by (eapply lookup_In; eauto).
    assert (Hfj : indice filho = j)
      by (rewrite (numerada_lookup _ 0 j filho Hnorm Hf); reflexivity).
    destruct (obterDescendentes_filho _ _ _ _ _ _ H Hfin Hdep)
      as (sub & Hsub & _ & Hincl).
    apply Hincl. apply (IH n filho sub token Hsub Hin). now rewrite Hfj.
Qed.

(** X8: in a normalised sentence the downward walk, when it returns, returns
    exactly the tokens of the sentence whose head chain reaches the root
    after one or more edges. *)
Theorem obterDescendentes_exato (n : nat) (sentenca : Sentenca)
    (raiz : Token) (l : list Token) (token : Token) :
  normalizada sentenca ->
  obterDescendentes n sentenca raiz = Ok l ->
  In token l
  <-> In token (s_tokens sentenca)
      /\ exists k, subir (S k) sentenca (indice token) = Some (indice raiz).
Proof.
  intros Hnorm H. split.
  - eapply obterDescendentes_cadeia; eauto.
  - intros [Hin [k Hk]]. eapply obterDescendentes_completo; eauto.
Qed.

Lemma obterDescendentes_exato_witness :
  In (tk "the" 0 "DET" (Some ("det", 1)))
     [tk "the" 0 "DET" (Some ("det", 1))]
  <-> In (tk "the" 0 "DET" (Some ("det", 1))) (s_tokens gato)
      /\ exists k,
           subir (S k) gato (indice (tk "the" 0 "DET" (Some ("det", 1))))
           = Some (indice (tk "cat" 1 "NOUN" (Some ("nsubj", 2)))).
Proof.
  apply (obterDescendentes_exato 2 gato (tk "cat" 1 "NOUN" (Some ("nsubj", 2)))).
  - reflexivity.
  - reflexivity.
Defined.

(** ** The rightward walk inside the downward walk *)

Lemma item_lt {A : Type} (l : list A) (i : nat) :
  i < length l -> exists x, item l i = Ok x /\ l !! i = Some x.
Proof.
  intros H. unfold item.
  destruct (lookup_lt_is_Some_2 l i H) as [x Hx]. rewrite Hx. eauto.
Qed.

Lemma obterDescendentesDaDireita_laco (n : nat) (sentenca : Sentenca)
    (raiz : Token) (l' : list Token) :
  obterDescendentes (S n) sentenca raiz = Ok l' ->
  forall idxs acc,
    (forall i, In i idxs -> i < length (s_tokens sentenca)) ->
    incl acc l' ->
    exists r,
      para (fun descendentes i =>
              seja token <- item (s_tokens sentenca) i em
              if negb (String.eqb (pos token) "PUNCT")
                 && pai_e token (indice raiz) then
                seja sub <- obterDescendentes n sentenca token em
                Ok ((descendentes ++ [token]) ++ sub)
              else Ok descendentes) idxs acc = Ok r
      /\ incl r l'.
Proof.
  intros H. induction idxs as [|i idxs IH]; intros acc Hlt Hacc; simpl.
  - eauto.
  - destruct (item_lt (s_tokens sentenca) i (Hlt i (or_introl eq_refl)))
      as (token & -> & Htok). simpl.
    assert (Hrest : forall j, In j idxs -> j < length (s_tokens sentenca))
      by (intros j Hj; apply Hlt; now right).
    destruct (negb (String.eqb (pos token) "PUNCT")
              && pai_e token (indice raiz)) eqn:Hcond; [|simpl; auto].
    apply andb_true_iff in Hcond as [_ Hpai].
    apply pai_e_inv in Hpai as [rel Hdep].
    destruct (obterDescendentes_filho _ _ _ _ _ _ H
                (lookup_In _ _ _ Htok) Hdep) as (sub & -> & Hin & Hsub).
    simpl. apply IH; [exact Hrest|].
    intros x Hx. rewrite !in_app_iff in Hx.
    destruct Hx as [[Hx|[<-|[]]]|Hx]; auto.
Qed.

(** X9: whenever the downward walk of a root returns, the rightward walk of
    that root returns too, with one nesting of calls less, and every token
    it returns is among those of the downward walk. *)
Theorem obterDescendentesDaDireita_incl (n : nat) (sentenca : Sentenca)
    (raiz : Token) (l' : list Token) :
  obterDescendentes (S n) sentenca raiz = Ok l' ->
  exists l,
    obterDescendentesDaDireita n sentenca raiz = Ok l /\ incl l l'.
Proof.
  intros H. unfold obterDescendentesDaDireita.
  apply (obterDescendentesDaDireita_laco n sentenca raiz l' H).
  - intros i Hi. apply In_range in Hi. lia.
  - intros x [].
Qed.

Lemma obterDescendentesDaDireita_incl_witness :
  exists l,
    obterDescendentesDaDireita 2 disse (tk "say" 3 "VERB" None) = Ok l
    /\ incl l [tk "did" 1 "VERB" (Some ("aux", 3));
               tk "you" 2 "PRON" (Some ("nsubj", 3));
               tk "ate" 6 "VERB" (Some ("ccomp", 3));
               tk "what" 0 "PRON" (Some ("dobj", 6));
               tk "that" 4 "ADP" (Some ("mark", 6));
               tk "he" 5 "PRON" (Some ("nsubj", 6));
               tk "?" 7 "PUNCT" (Some ("punct", 3))].
Proof.
  apply (obterDescendentesDaDireita_incl 2 disse (tk "say" 3 "VERB" None)).
  reflexivity.
Defined.

(** Every token the rightward walk returns hangs from the root. *)
Lemma obterDescendentesDaDireita_cadeia (sentenca : Sentenca) (n : nat)
    (raiz : Token) (l : list Token) :
  normalizada sentenca ->
  obterDescendentesDaDireita n sentenca raiz = Ok l ->
  forall token,
    In token l ->
    In token (s_tokens sentenca)
    /\ exists k, subir (S k) sentenca (indice token) = Some (indice raiz).
Proof.
  intros Hnorm H. unfold obterDescendentesDaDireita in H.
  pose (P := fun acc : list Token =>
               forall token,
                 In token acc ->
                 In token (s_tokens sentenca)
                 /\ exists k,
                      subir (S k) sentenca (indice token)
                      = Some (indice raiz)).
  change (P l). revert H. apply para_invariante; [intros token []|].
  intros a i a' _ Ha Hbody token Hin.
  apply bind_ok in Hbody as (filho & Hitem & Hbody). apply item_ok in Hitem.
  assert (Hfin : In filho (s_tokens sentenca)) by (eapply lookup_In; eauto).
  destruct (negb (String.eqb (pos filho) "PUNCT")
            && pai_e filho (indice raiz)) eqn:Hcond.
  - apply bind_ok in Hbody as (sub & Hsub & Hbody). injection Hbody as <-.
    apply andb_true_iff in Hcond as [_ Hpai].
    apply pai_e_inv in Hpai as [rel Hdep].
    assert (Hum := subir_um _ _ _ _ Hnorm Hfin Hdep).
    rewrite !in_app_iff in Hin. destruct Hin as [[Hin|[<-|[]]]|Hin].
    + auto.
    + split; [exact Hfin|]. now exists 0.
    + destruct (obterDescendentes_cadeia _ Hnorm _ _ _ Hsub token Hin)
        as [Htok [k Hk]].
      split; [exact Htok|]. exists (S k).
      replace (S (S k)) with (S k + 1) by lia.
      now rewrite subir_soma, Hk.
  - injection Hbody as <-. auto.
Qed.

(** ** Object phrases *)

(** X10: an object phrase that is returned, in a normalised sentence, is
    sorted and holds a token whose relation is one of those asked for; the
    verb phrase given holds a main verb, and every token of the object
    phrase is a token of the sentence whose head chain reaches that verb. *)
Theorem obterObjetos_frase (n : nat) (sentenca : Sentenca)
    (verbo : option Trecho) (relacoes : list string) (tr : Trecho) :
  normalizada sentenca ->
  obterObjetosRelacionadosAoVerbo n sentenca verbo relacoes = Ok (Some tr) ->
  crescente (map indice (tokens tr)) = true
  /\ (exists token,
         In token (tokens tr) /\ relacao_em token relacoes = true)
  /\ exists v raiz,
       verbo = Some v
       /\ verboPrincipal v = Some raiz
       /\ forall token,
            In token (tokens tr) ->
            In token (s_tokens sentenca)
            /\ exists k,
                 subir (S k) sentenca (indice token) = Some (indice raiz).
Proof.
  intros Hnorm H.
  destruct (obterObjetos_ok _ _ _ _ _ H)
    as (v & raiz & descendentes & -> & Hraiz & Hd & Hne & comp & Hc & ->).
  set (objetos := List.filter (fun token => relacao_em token relacoes)
                    descendentes) in *.
  assert (Hobj : forall o,
             In o objetos ->
             relacao_em o relacoes = true
             /\ In o (s_tokens sentenca)
             /\ exists k,
                  subir (S k) sentenca (indice o) = Some (indice raiz)).
  { intros o Ho. apply filter_In in Ho as [Ho Hrel]. split; [exact Hrel|].
    eapply obterDescendentesDaDireita_cadeia; eauto. }
  assert (Hcomp : forall token,
             In token comp ->
             In token (s_tokens sentenca)
             /\ exists k,
                  subir (S k) sentenca (indice token) = Some (indice raiz)).
  { revert Hc.
    apply (para_invariante
             (fun c : list Token =>
                forall token,
                  In token c ->
                  In token (s_tokens sentenca)
                  /\ exists k,
                       subir (S k) sentenca (indice token)
                       = Some (indice raiz))); [intros token []|].
    intros a o a' Ho Ha Hbody token Hin.
    apply bind_ok in Hbody as (d & Hdo & Hbody). injection Hbody as <-.
    apply in_app_iff in Hin as [Hin|Hin]; [auto|].
    destruct (obterDescendentes_cadeia _ Hnorm _ _ _ Hdo token Hin)
      as [Htok [k2 Hk2]].
    destruct (Hobj o Ho) as (_ & _ & k1 & Hk1).
    split; [exact Htok|]. exists (k2 + S k1).
    replace (S (k2 + S k1)) with (S k2 + S k1) by lia.
    now rewrite subir_soma, Hk2. }
  split; [apply ordenar_crescente|]. split.
  - destruct objetos as [|o objetos'] eqn:Heq; [contradiction|].
    exists o. split.
    + apply ordenar_In. simpl. now left.
    + apply (Hobj o). now left.
  - exists v, raiz. split; [reflexivity|]. split; [exact Hraiz|].
    intros token Hin.
    apply (proj1 (ordenar_In (mkTrecho (objetos ++ comp)) token)) in Hin.
    simpl in Hin. apply in_app_iff in Hin as [Ho|Hcm].
    + destruct (Hobj token Ho) as (_ & Htok & Hk). auto.
    + apply Hcomp. exact Hcm.
Qed.

Lemma obterObjetos_frase_witness :
  crescente (map indice [tk "fish" 3 "NOUN" (Some ("dobj", 2))]) = true
  /\ (exists token,
         In token [tk "fish" 3 "NOUN" (Some ("dobj", 2))]
         /\ relacao_em token RELACOES_OBJETO_DIRETO = true)
  /\ exists v raiz,
       Some (mkTrecho [tk "eats" 2 "VERB" None]) = Some v
       /\ verboPrincipal v = Some raiz
       /\ forall token,
            In token [tk "fish" 3 "NOUN" (Some ("dobj", 2))] ->
            In token (s_tokens gato)
            /\ exists k, subir (S k) gato (indice token) = Some (indice raiz).
Proof.
  apply (obterObjetos_frase 1 gato (Some (mkTrecho [tk "eats" 2 "VERB" None]))
           RELACOES_OBJETO_DIRETO
           (mkTrecho [tk "fish" 3 "NOUN" (Some ("dobj", 2))])).
  - reflexivity.
  - reflexivity.
Defined.

(** ** The complements of the verb *)

Lemma obterComplementares_termina_medida (sentenca : Sentenca) :
  normalizada sentenca -> sem_auto_pai sentenca = true ->
  forall m raiz n,
    length (s_tokens sentenca) - indice raiz <= m -> m < n ->
    exists l, obterComplementaresDoVerbo n sentenca raiz = Ok l.
Proof.
  intros Hnorm Hsap. unfold sem_auto_pai in Hsap.
  rewrite forallb_forall in Hsap.
  induction m as [|m IH]; intros raiz n Hm Hn;
    (destruct n as [|n]; [lia|]); simpl; apply para_total;
    intros a i Hi; apply In_range in Hi; [lia|].
  destruct (item_lt (s_tokens sentenca) i) as (token & -> & Htok); [lia|].
  simpl.
  destruct (pai_e token (indice raiz)
            && negb (relacao_em token RELACOES_OBJETO)) eqn:Hcond; [|eauto].
  apply andb_true_iff in Hcond as [Hpai _].
  assert (Hti : indice token = i)
    by (rewrite (numerada_lookup _ 0 i token Hnorm Htok); reflexivity).
  assert (Hne : i <> indice raiz).
  { intros ->. specialize (Hsap token (lookup_In _ _ _ Htok)).
    rewrite Hti, Hpai in Hsap. discriminate. }
  destruct (IH token n) as [sub ->]; [lia|lia|]. simpl. eauto.
Qed.

(** X11: in a normalised sentence where no token is its own head, the walk
    that collects the complements of a verb returns, without raising, as
    soon as the budget exceeds the number of positions from the root to the
    end of the sentence; cycles among the edges do not matter. *)
Theorem obterComplementares_termina (sentenca : Sentenca) (raiz : Token)
    (n : nat) :
  normalizada sentenca -> sem_auto_pai sentenca = true ->
  length (s_tokens sentenca) - indice raiz < n ->
  exists l, obterComplementaresDoVerbo n sentenca raiz = Ok l.
Proof.
  intros Hnorm Hsap Hn.
  apply (obterComplementares_termina_medida sentenca Hnorm Hsap
           (length (s_tokens sentenca) - indice raiz)); auto.
Qed.

Lemma obterComplementares_termina_witness :
  exists l,
    obterComplementaresDoVerbo 3 ciclo (tk "a" 0 "NOUN" (Some ("dep", 1)))
    = Ok l.
Proof.
  apply (obterComplementares_termina ciclo).
  - reflexivity.
  - reflexivity.
  - simpl. lia.
Defined.

(** X12: in a normalised sentence every complement returned is a token of
    the sentence that is no object, stands at or after the root and before
    the last position, and hangs from the root by one or more edges. *)
Theorem obterComplementares_correto (sentenca : Sentenca) :
  normalizada sentenca ->
  forall n raiz l,
    obterComplementaresDoVerbo n sentenca raiz = Ok l ->
    Forall (fun token =>
              In token (s_tokens sentenca)
              /\ relacao_em token RELACOES_OBJETO = false
              /\ indice raiz <= indice token
                 < length (s_tokens sentenca) - 1
              /\ exists k,
                   subir (S k) sentenca (indice token) = Some (indice raiz))
           l.
Proof.
  intros Hnorm. induction n as [|n IH]; intros raiz l H; [discriminate|].
  simpl in H. revert H. apply para_invariante; [constructor|].
  intros a i a' Hi Ha Hbody. apply In_range in Hi.
  apply bind_ok in Hbody as (token & Hitem & Hbody). apply item_ok in Hitem.
  destruct (pai_e token (indice raiz)
            && negb (relacao_em token RELACOES_OBJETO)) eqn:Hcond.
  - apply bind_ok in Hbody as (sub & Hsub & Hbody). injection Hbody as <-.
    apply andb_true_iff in Hcond as [Hpai Hrel].
    apply negb_true_iff in Hrel. apply pai_e_inv in Hpai as [rel Hdep].
    assert (Hin : In token (s_tokens sentenca)) by (eapply lookup_In; eauto).
    assert (Hti : indice token = i)
      by (rewrite (numerada_lookup _ 0 i token Hnorm Hitem); reflexivity).
    assert (Hum := subir_um _ _ _ _ Hnorm Hin Hdep).
    apply List.Forall_app. split; [apply List.Forall_app; split|].
    + exact Ha.
    + constructor; [|constructor]. repeat split; auto; try lia.
      now exists 0.
    + eapply List.Forall_impl; [|exact (IH token sub Hsub)].
      intros t (Ht & Hr & Hle & k & Hk). repeat split; auto; try lia.
      exists (S k). replace (S (S k)) with (S k + 1) by lia.
      now rewrite subir_soma, Hk.
  - injection Hbody as <-. exact Ha.
Qed.

Lemma obterComplementares_correto_witness :
  Forall (fun token =>
            In token (s_tokens chegou)
            /\ relacao_em token RELACOES_OBJETO = false
            /\ indice (tk "arrived" 1 "VERB" None) <= indice token
               < length (s_tokens chegou) - 1
            /\ exists k,
                 subir (S k) chegou (indice token)
                 = Some (indice (tk "arrived" 1 "VERB" None)))
         [tk "with" 2 "ADP" (Some ("prep", 1));
          tk "man" 4 "NOUN" (Some ("pobj", 2));
          tk "smiled" 7 "VERB" (Some ("relcl", 4));
          tk "yesterday" 5 "NOUN" (Some ("npadvmod", 1))].
Proof.
  apply (obterComplementares_correto chegou eq_refl 4
           (tk "arrived" 1 "VERB" None)).
  reflexivity.
Defined.

(** ** What the upward walk returns *)

Lemma subir_passo (sentenca : Sentenca) (i iPai m : nat) (token : Token)
    (rel : string) :
  s_tokens sentenca !! i = Some token ->
  dependencia token = Some (rel, iPai) ->
  subir (S m) sentenca i = subir m sentenca iPai.
Proof. intros Hi Hdep. simpl. now rewrite Hi, Hdep. Qed.

(** X13: a token the upward walk returns is the nearest one with the POS
    asked for on the head chain of the start: it stands on that chain and
    no token before it on the chain has that POS. *)
Theorem buscarAscendente_mais_proximo (sentenca : Sentenca) (p : string) :
  forall n folha v,
    buscarAscendenteComPOSEspecifico n sentenca folha p = Ok (Some v) ->
    exists rel iPai m j,
      dependencia folha = Some (rel, iPai)
      /\ subir m sentenca iPai = Some j
      /\ s_tokens sentenca !! j = Some v
      /\ pos v = p
      /\ forall m' j' token,
           m' < m -> subir m' sentenca iPai = Some j' ->
           s_tokens sentenca !! j' = Some token -> pos token <> p.
Proof.
  induction n as [|n IH]; intros folha v H; [discriminate|]. simpl in H.
  destruct (dependencia folha) as [[rel iPai]|] eqn:Hdep; [|discriminate].
  apply bind_ok in H as (pai & Hpai & H). apply item_ok in Hpai.
  exists rel, iPai.
  destruct (String.eqb (pos pai) p) eqn:Hp.
  - injection H as <-. apply String.eqb_eq in Hp.
    exists 0, iPai. repeat split; auto. intros m' j' token Hlt. lia.
  - apply String.eqb_neq in Hp.
    destruct (IH pai v H) as (rel' & iAvo & m & j & Hd' & Hs & Hj & Hv & Hmin).
    exists (S m), j. repeat split; auto.
    + now rewrite (subir_passo _ _ _ _ _ _ Hpai Hd').
    + intros m' j' token Hlt Hs' Hj'. destruct m' as [|m'].
      * simpl in Hs'. injection Hs' as <-. rewrite Hpai in Hj'.
        now injection Hj' as <-.
      * rewrite (subir_passo _ _ _ _ _ _ Hpai Hd') in Hs'.
        apply (Hmin m' j' token); auto. lia.
Qed.

Lemma buscarAscendente_mais_proximo_witness :
  exists rel iPai m j,
    dependencia (tk "the" 0 "DET" (Some ("det", 1))) = Some (rel, iPai)
    /\ subir m gato iPai = Some j
    /\ s_tokens gato !! j = Some (tk "eats" 2 "VERB" None)
    /\ pos (tk "eats" 2 "VERB" None) = "VERB"
    /\ forall m' j' token,
         m' < m -> subir m' gato iPai = Some j' ->
         s_tokens gato !! j' = Some token -> pos token <> "VERB".
Proof.
  apply (buscarAscendente_mais_proximo gato "VERB" 2
           (tk "the" 0 "DET" (Some ("det", 1)))).
  reflexivity.
Defined.

(** X14: when the upward walk returns None, the head chain of the start
    ends in a token without a head and holds no token with the POS asked
    for. *)
Theorem buscarAscendente_nenhum (sentenca : Sentenca) (p : string) :
  forall n folha,
    buscarAscendenteComPOSEspecifico n sentenca folha p = Ok None ->
    (dependencia folha = None
     \/ exists rel iPai m j raiz,
          dependencia folha = Some (rel, iPai)
          /\ subir m sentenca iPai = Some j
          /\ s_tokens sentenca !! j = Some raiz
          /\ dependencia raiz = None)
    /\ forall rel iPai m j token,
         dependencia folha = Some (rel, iPai) ->
         subir m sentenca iPai = Some j ->
         s_tokens sentenca !! j = Some token -> pos token <> p.
Proof.
  induction n as [|n IH]; intros folha H; [discriminate|]. simpl in H.
  destruct (dependencia folha) as [[rel iPai]|] eqn:Hdep.
  - apply bind_ok in H as (pai & Hpai & H). apply item_ok in Hpai.
    destruct (String.eqb (pos pai) p) eqn:Hp; [discriminate|].
    apply String.eqb_neq in Hp.
    destruct (IH pai H) as [Hfim Hsem]. split.
    + right. exists rel, iPai.
      destruct Hfim as [Hnone|(rel' & iAvo & m & j & raiz & Hd' & Hs & Hj & Hr)].
      * exists 0, iPai, pai. auto.
      * exists (S m), j, raiz. repeat split; auto.
        now rewrite (subir_passo _ _ _ _ _ _ Hpai Hd').
    + intros rel0 iPai0 m j token Heq Hs Hj. injection Heq as <- <-.
      destruct m as [|m].
      * simpl in Hs. injection Hs as <-. rewrite Hpai in Hj.
        now injection Hj as <-.
      * simpl in Hs. rewrite Hpai in Hs.
        destruct (dependencia pai) as [[rel' iAvo]|] eqn:Hd'; [|discriminate].
        apply (Hsem rel' iAvo m j token); auto.
  - split; [now left|]. intros; discriminate.
Qed.

Lemma buscarAscendente_nenhum_witness :
  (dependencia (tk "he" 0 "PRON" (Some ("nsubj", 1))) = None
   \/ exists rel iPai m j raiz,
        dependencia (tk "he" 0 "PRON" (Some ("nsubj", 1)))
        = Some (rel, iPai)
        /\ subir m feliz iPai = Some j
        /\ s_tokens feliz !! j = Some raiz
        /\ dependencia raiz = None)
  /\ forall rel iPai m j token,
       dependencia (tk "he" 0 "PRON" (Some ("nsubj", 1)))
       = Some (rel, iPai) ->
       subir m feliz iPai = Some j ->
       s_tokens feliz !! j = Some token -> pos token <> "VERB".
Proof.
  apply (buscarAscendente_nenhum feliz "VERB" 2
           (tk "he" 0 "PRON" (Some ("nsubj", 1)))).
  reflexivity.
Defined.

Lemma buscarAscendente_excecao_aux (sentenca : Sentenca) (p : string) :
  forall n folha e,
    buscarAscendenteComPOSEspecifico n sentenca folha p = Raise e ->
    exists rel iPai m j,
      dependencia folha = Some (rel, iPai)
      /\ subir m sentenca iPai = Some j
      /\ length (s_tokens sentenca) <= j.
Proof.
  induction n as [|n IH]; intros folha e H; [discriminate|]. simpl in H.
  destruct (dependencia folha) as [[rel iPai]|] eqn:Hdep; [|discriminate].
  unfold item in H.
  destruct (s_tokens sentenca !! iPai) as [pai|] eqn:Hpai; simpl in H.
  - destruct (String.eqb (pos pai) p); [discriminate|].
    destruct (IH pai e H) as (rel' & iAvo & m & j & Hd' & Hs & Hj).
    exists rel, iPai, (S m), j. repeat split; auto.
    now rewrite (subir_passo _ _ _ _ _ _ Hpai Hd').
  - exists rel, iPai, 0, iPai. repeat split; auto.
    now apply lookup_ge_None.
Qed.

Lemma buscarAscendente_so_IndexError (sentenca : Sentenca) (p : string) :
  forall n folha e,
    buscarAscendenteComPOSEspecifico n sentenca folha p = Raise e ->
    e = IndexError.
Proof.
  induction n as [|n IH]; intros folha e H; [discriminate|]. simpl in H.
  destruct (dependencia folha) as [[rel iPai]|]; [|discriminate].
  unfold item in H.
  destruct (s_tokens sentenca !! iPai) as [pai|]; simpl in H.
  - destruct (String.eqb (pos pai) p); [discriminate|]. eauto.
  - now injection H as <-.
Qed.

(** X15: the only exception of the upward walk is IndexError, raised when
    the head chain of the start leaves the sentence. *)
Theorem buscarAscendente_excecao (sentenca : Sentenca) (p : string)
    (n : nat) (folha : Token) (e : exn) :
  buscarAscendenteComPOSEspecifico n sentenca folha p = Raise e ->
  e = IndexError
  /\ exists rel iPai m j,
       dependencia folha = Some (rel, iPai)
       /\ subir m sentenca iPai = Some j
       /\ length (s_tokens sentenca) <= j.
Proof.
  intros H. split.
  - eapply buscarAscendente_so_IndexError; eauto.
  - eapply buscarAscendente_excecao_aux; eauto.
Qed.

Lemma buscarAscendente_excecao_witness :
  IndexError = IndexError
  /\ exists rel iPai m j,
       dependencia (tk "x" 0 "NOUN" (Some ("dep", 5))) = Some (rel, iPai)
       /\ subir m solto iPai = Some j
       /\ length (s_tokens solto) <= j.
Proof.
  apply (buscarAscendente_excecao solto "VERB" 1
           (tk "x" 0 "NOUN" (Some ("dep", 5)))).
  reflexivity.
Defined.

Lemma cabecas_validas_subir (sentenca : Sentenca) :
  cabecas_validas sentenca = true ->
  forall m i j,
    i < length (s_tokens sentenca) -> subir m sentenca i = Some j ->
    j < length (s_tokens sentenca).
Proof.
  intros Hv. unfold cabecas_validas in Hv. rewrite forallb_forall in Hv.
  induction m as [|m IH]; intros i j Hi Hs; simpl in Hs.
  - now injection Hs as <-.
  - destruct (s_tokens sentenca !! i) as [token|] eqn:Htok; [|discriminate].
    destruct (dependencia token) as [[rel iPai]|] eqn:Hdep; [|discriminate].
    specialize (Hv token (lookup_In _ _ _ Htok)). rewrite Hdep in Hv.
    apply Nat.ltb_lt in Hv. eauto.
Qed.

Lemma buscarAscendente_valida (sentenca : Sentenca) (p : string)
    (n : nat) (folha : Token) :
  cabecas_validas sentenca = true ->
  In folha (s_tokens sentenca) ->
  buscarAscendenteComPOSEspecifico n sentenca folha p = Estouro
  \/ exists r, buscarAscendenteComPOSEspecifico n sentenca folha p = Ok r.
Proof.
  intros Hv Hin.
  destruct (buscarAscendenteComPOSEspecifico n sentenca folha p)
    as [r|e|] eqn:H; [eauto| |auto].
  exfalso.
  destruct (buscarAscendente_excecao_aux sentenca p n folha e H)
    as (rel & iPai & m & j & Hdep & Hs & Hj).
  assert (Hi : iPai < length (s_tokens sentenca)).
  { unfold cabecas_validas in Hv. rewrite forallb_forall in Hv.
    specialize (Hv folha Hin). rewrite Hdep in Hv. now apply Nat.ltb_lt. }
  assert (Hlt := cabecas_validas_subir _ Hv m iPai j Hi Hs). lia.
Qed.

(** X16: when every head is a position of the sentence, the upward walk
    from a token of the sentence raises nothing: it returns or its budget
    runs out. *)
Theorem buscarAscendente_sem_excecao (sentenca : Sentenca) (p : string)
    (n : nat) (folha : Token) :
  cabecas_validas sentenca = true ->
  In folha (s_tokens sentenca) ->
  buscarAscendenteComPOSEspecifico n sentenca folha p = Estouro
  \/ exists r, buscarAscendenteComPOSEspecifico n sentenca folha p = Ok r.
Proof. apply buscarAscendente_valida. Qed.

Lemma buscarAscendente_sem_excecao_witness :
  buscarAscendenteComPOSEspecifico 1 ciclo
    (tk "a" 0 "NOUN" (Some ("dep", 1))) "VERB" = Estouro
  \/ exists r,
       buscarAscendenteComPOSEspecifico 1 ciclo
         (tk "a" 0 "NOUN" (Some ("dep", 1))) "VERB" = Ok r.
Proof.
  apply (buscarAscendente_sem_excecao ciclo "VERB" 1).
  - reflexivity.
  - simpl. tauto.
Defined.

(** ** Walks that start on a cycle *)

(** X17: in a normalised sentence no budget suffices for the downward walk
    from a token that lies on a cycle of heads, nor for the upward walk
    from it when no token of the cycle has the POS asked for. *)
Theorem percursos_ciclo_geral (sentenca : Sentenca) (n i k : nat)
    (token : Token) (p : string) :
  normalizada sentenca ->
  0 < k -> subir k sentenca i = Some i ->
  s_tokens sentenca !! i = Some token ->
  (forall m j u,
      subir m sentenca i = Some j ->
      s_tokens sentenca !! j = Some u -> pos u <> p) ->
  obterDescendentes n sentenca token = Estouro
  /\ buscarAscendenteComPOSEspecifico n sentenca token p = Estouro.
Proof.
  intros Hnorm Hk Hs Hi Hp. split.
  - eapply obterDescendentes_ciclo; eauto.
  - eapply buscarAscendente_ciclo; eauto.
Qed.

Lemma percursos_ciclo_geral_witness :
  obterDescendentes 7 ciclo (tk "b" 1 "NOUN" (Some ("dep", 0))) = Estouro
  /\ buscarAscendenteComPOSEspecifico 7 ciclo
       (tk "b" 1 "NOUN" (Some ("dep", 0))) "VERB" = Estouro.
Proof.
  apply (percursos_ciclo_geral ciclo 7 1 2).
  - reflexivity.
  - lia.
  - reflexivity.
  - reflexivity.
  - intros m j u _ Hj.
    assert (Hpos : forall t, In t (s_tokens ciclo) -> pos t <> "VERB")
      by (intros t [<-|[<-|[]]]; discriminate).
    apply Hpos. eapply lookup_In; eauto.
Defined.

(** ** The loop over the sentences *)

Lemma analisarSentencas_snoc (n : nat) (sentencas feitas : list Sentenca) :
  analisarSentencas n sentencas = Ok feitas
  <-> Forall2 (fun sentenca s => analisarSentenca n sentenca = Ok s)
        sentencas feitas.
Proof.
  unfold analisarSentencas. rewrite (para_snoc (analisarSentenca n)).
  - split; [intros (ys & H & ->); exact H|intros H; eauto].
  - reflexivity.
Qed.

Lemma obterTipo_valores (sentenca : Sentenca) (t : nat) :
  obterTipoDaSentenca sentenca = Ok t ->
  t = TIPO_SENTENCA_DECLARATIVA \/ t = TIPO_SENTENCA_CONDICIONAL.
Proof.
  unfold obterTipoDaSentenca. intros H.
  apply bind_ok in H as (t0 & _ & H).
  destruct (String.eqb (pos t0) "ADP"); [|injection H as <-; auto].
  destruct (String.eqb (texto t0) "if"); [injection H as <-; auto|].
  apply bind_ok in H as (t1 & _ & H).
  destruct (String.eqb (texto t1) "case"); injection H as <-; auto.
Qed.

(** X18: when the loop over the sentences returns, each sentence has kept
    its tokens and has its type; a declarative one holds the records that
    the extraction returns for it, a conditional one the list of records
    it had. *)
Theorem analisarSentencas_resultado (n : nat)
    (sentencas feitas : list Sentenca) :
  analisarSentencas n sentencas = Ok feitas ->
  Forall2 (fun sentenca s =>
             s_tokens s = s_tokens sentenca
             /\ (tipo s = Some TIPO_SENTENCA_DECLARATIVA
                 /\ extrairSVOs n sentenca = Ok (svos s)
                 \/ tipo s = Some TIPO_SENTENCA_CONDICIONAL
                    /\ svos s = svos sentenca))
          sentencas feitas.
Proof.
  intros H. apply analisarSentencas_snoc in H.
  eapply Forall2_impl; [exact H|]. clear H.
  intros sentenca s H. unfold analisarSentenca in H.
  apply bind_ok in H as (t & Ht & H).
  destruct (obterTipo_valores sentenca t Ht) as [->| ->]; simpl in H.
  - apply bind_ok in H as (l & Hl & H). injection H as <-. simpl. auto.
  - injection H as <-. simpl. auto.
Qed.

Lemma analisarSentencas_resultado_witness :
  Forall2 (fun sentenca s =>
             s_tokens s = s_tokens sentenca
             /\ (tipo s = Some TIPO_SENTENCA_DECLARATIVA
                 /\ extrairSVOs 2 sentenca = Ok (svos s)
                 \/ tipo s = Some TIPO_SENTENCA_CONDICIONAL
                    /\ svos s = svos sentenca))
          [gato; so_if] [gato_feita; so_if_feita].
Proof.
  apply (analisarSentencas_resultado 2 [gato; so_if]
           [gato_feita; so_if_feita]).
  reflexivity.
Defined.

Lemma Forall2_In_l {A B : Type} (P : A -> B -> Prop) (l1 : list A)
    (l2 : list B) (x : A) :
  Forall2 P l1 l2 -> In x l1 -> exists y, In y l2 /\ P x y.
Proof.
  induction 1 as [|a b l1 l2 Hab H IH]; intros Hin; [destruct Hin|].
  destruct Hin as [<-|Hin].
  - exists b. split; [now left|exact Hab].
  - destruct (IH Hin) as (y & Hy & Hxy). exists y. split; [now right|exact Hxy].
Qed.

(** X19: one declarative sentence with a subject for which no verb is found
    makes the loop over all the sentences fail: nothing is returned for any
    of them. *)
Theorem analisarSentencas_aborta (n : nat) (sentencas : list Sentenca)
    (sentenca : Sentenca) (sujeitos : list Trecho) (suj : Trecho) :
  In sentenca sentencas ->
  obterTipoDaSentenca sentenca = Ok TIPO_SENTENCA_DECLARATIVA ->
  extrairSujeitos n sentenca = Ok sujeitos ->
  In suj sujeitos ->
  obterVerboRelacionadoAoSujeito n sentenca suj = Ok None ->
  analisarSentencas n sentencas = Estouro
  \/ exists e, analisarSentencas n sentencas = Raise e.
Proof.
  intros Hin Htipo Hs Hsuj Hv.
  destruct (analisarSentencas n sentencas) as [feitas|e|] eqn:H; eauto.
  exfalso. apply analisarSentencas_snoc in H.
  destruct (Forall2_In_l _ _ _ _ H Hin) as (s & _ & Hs').
  unfold analisarSentenca in Hs'. rewrite Htipo in Hs'. simpl in Hs'.
  apply bind_ok in Hs' as (l & Hl & _).
  exact (extrairSVOs_sem_verbo n sentenca sujeitos suj Hs Hsuj Hv l Hl).
Qed.

Lemma analisarSentencas_aborta_witness :
  analisarSentencas 2 [gato; feliz] = Estouro
  \/ exists e, analisarSentencas 2 [gato; feliz] = Raise e.
Proof.
  apply (analisarSentencas_aborta 2 [gato; feliz] feliz
           [mkTrecho [tk "he" 0 "PRON" (Some ("nsubj", 1))]]
           (mkTrecho [tk "he" 0 "PRON" (Some ("nsubj", 1))])).
  - simpl. tauto.
  - reflexivity.
  - reflexivity.
  - simpl. tauto.
  - reflexivity.
Defined.

(** ** The sentences of the normaliser *)

Lemma index_de_Some (h : nat) (tokens : list Palavra) :
  forall i,
    index_de h tokens = Some i ->
    exists w, tokens !! i = Some w /\ i_ w = h.
Proof.
  induction tokens as [|w tokens IH]; intros i H; simpl in H; [discriminate|].
  destruct (i_ w =? h) eqn:Hw.
  - injection H as <-. exists w. apply Nat.eqb_eq in Hw. auto.
  - destruct (index_de h tokens) as [j|]; [|discriminate].
    injection H as <-. destruct (IH j eq_refl) as (u & Hu & Hh). eauto.
Qed.

Lemma index_de_None (h : nat) (tokens : list Palavra) :
  index_de h tokens = None <-> forall w, In w tokens -> i_ w <> h.
Proof.
  induction tokens as [|w tokens IH]; simpl.
  - split; [intros _ u []|reflexivity].
  - destruct (i_ w =? h) eqn:Hw.
    + apply Nat.eqb_eq in Hw. split; [discriminate|].
      intros H. exfalso. apply (H w); auto.
    + apply Nat.eqb_neq in Hw.
      destruct (index_de h tokens) as [j|]; simpl.
      * split; [discriminate|]. intros H.
        assert (Hn : Some j = None)
          by (apply IH; intros u Hu; apply H; now right).
        discriminate.
      * split; [|reflexivity]. intros _ u [<-|Hu]; [exact Hw|].
        now apply (proj1 IH).
Qed.

(** What the inner loop makes of the words from position [length pre] on. *)
Lemma normalizarPalavras_ok (frase : list Palavra) :
  forall resto pre ts,
    frase = pre ++ resto ->
    normalizarPalavras frase resto (length pre) = Normal ts ->
    numerada (length pre) ts = true
    /\ map texto ts = map lower_ resto
    /\ map pos ts = map pos_ resto
    /\ Forall (fun token =>
                 match dependencia token with
                 | Some (_, iPai) =>
                     iPai < length frase /\ iPai <> indice token
                 | None => True
                 end) ts.
Proof.
  induction resto as [|w resto IH]; intros pre ts Hfr H; simpl in H.
  - injection H as <-. repeat split; constructor.
  - destruct (obterDependenciasDoToken frase w) as [d|] eqn:Hd;
      [|discriminate].
    destruct (normalizarPalavras frase resto (S (length pre))) as [ts'|]
      eqn:Hts; [|discriminate].
    injection H as <-.
    assert (Hpre : S (length pre) = length (pre ++ [w]))
      by (rewrite length_app; simpl; lia).
    rewrite Hpre in Hts.
    destruct (IH (pre ++ [w]) ts') as (Hn & Ht & Hp & Hf);
      [now rewrite <- app_assoc|exact Hts|].
    rewrite <- Hpre in Hn. simpl. rewrite Nat.eqb_refl, Hn, Ht, Hp.
    repeat split; auto. constructor; [|exact Hf]. simpl.
    unfold obterDependenciasDoToken in Hd.
    destruct (head_ w =? i_ w) eqn:Hroot; [now injection Hd as <-|].
    destruct (index_de (head_ w) frase) as [iPai|] eqn:Hi; [|discriminate].
    injection Hd as <-.
    destruct (index_de_Some _ _ _ Hi) as (u & Hu & Hh).
    split; [eapply lookup_lt_Some; eauto|].
    intros ->. rewrite Hfr in Hu.
    rewrite lookup_app_r, Nat.sub_diag in Hu by lia. simpl in Hu.
    injection Hu as <-. apply Nat.eqb_neq in Hroot. congruence.
Qed.

Lemma normalizarPalavras_length (frase : list Palavra) :
  forall resto i ts,
    normalizarPalavras frase resto i = Normal ts ->
    length ts = length resto.
Proof.
  induction resto as [|w resto IH]; intros i ts H; simpl in H.
  - now injection H as <-.
  - destruct (obterDependenciasDoToken frase w); [|discriminate].
    destruct (normalizarPalavras frase resto (S i)) as [ts'|] eqn:Hts;
      [|discriminate].
    injection H as <-. simpl. f_equal. eauto.
Qed.

(** The invariants of one normalised sentence. *)
Lemma normalizarPalavras_invariantes (frase : list Palavra)
    (ts : list Token) :
  normalizarPalavras frase frase 0 = Normal ts ->
  normalizada (nova_sentenca ts)
  /\ sem_auto_pai (nova_sentenca ts) = true
  /\ cabecas_validas (nova_sentenca ts) = true
  /\ map texto ts = map lower_ frase
  /\ map pos ts = map pos_ frase.
Proof.
  intros H.
  assert (Hlen := normalizarPalavras_length _ _ _ _ H).
  destruct (normalizarPalavras_ok frase frase [] ts eq_refl H)
    as (Hn & Ht & Hp & Hf).
  rewrite List.Forall_forall in Hf.
  split; [exact Hn|]. split; [|split; [|auto]].
  - unfold sem_auto_pai. apply forallb_forall. intros token Hin.
    specialize (Hf token Hin). unfold pai_e.
    destruct (dependencia token) as [[rel iPai]|]; [|reflexivity].
    apply negb_true_iff, Nat.eqb_neq. tauto.
  - unfold cabecas_validas. apply forallb_forall. intros token Hin.
    specialize (Hf token Hin). simpl.
    destruct (dependencia token) as [[rel iPai]|]; [|reflexivity].
    apply Nat.ltb_lt. rewrite Hlen. tauto.
Qed.

Lemma normalizarAnaliseSintatica_invariantes :
  forall sents ss,
    normalizarAnaliseSintatica sents = Normal ss ->
    Forall2 (fun frase s =>
               normalizada s
               /\ sem_auto_pai s = true
               /\ cabecas_validas s = true
               /\ map texto (s_tokens s) = map lower_ frase
               /\ map pos (s_tokens s) = map pos_ frase
               /\ tipo s = None /\ svos s = [])
            sents ss.
Proof.
  induction sents as [|frase sents IH]; intros ss H; simpl in H.
  - injection H as <-. constructor.
  - destruct (normalizarPalavras frase frase 0) as [ts|] eqn:Hts;
      [|discriminate].
    destruct (normalizarAnaliseSintatica sents) as [ss'|]; [|discriminate].
    injection H as <-. constructor; [|auto].
    destruct (normalizarPalavras_invariantes _ _ Hts)
      as (H1 & H2 & H3 & H4 & H5).
    repeat split; auto.
Qed.

(** X20: every sentence the normaliser returns has its tokens numbered by
    position, no token that is its own head and every head inside the
    sentence; it keeps the lower-cased forms and the POS tags of the words,
    and starts without type and without records. *)
Theorem normalizar_invariantes (sents : list (list Palavra))
    (ss : list Sentenca) :
  normalizarAnaliseSintatica sents = Normal ss ->
  Forall2 (fun frase s =>
             normalizada s
             /\ sem_auto_pai s = true
             /\ cabecas_validas s = true
             /\ map texto (s_tokens s) = map lower_ frase
             /\ map pos (s_tokens s) = map pos_ frase
             /\ tipo s = None /\ svos s = [])
          sents ss.
Proof. apply normalizarAnaliseSintatica_invariantes. Qed.

Lemma normalizar_invariantes_witness :
  Forall2 (fun frase s =>
             normalizada s
             /\ sem_auto_pai s = true
             /\ cabecas_validas s = true
             /\ map texto (s_tokens s) = map lower_ frase
             /\ map pos (s_tokens s) = map pos_ frase
             /\ tipo s = None /\ svos s = [])
          gato_doc [gato].
Proof. apply (normalizar_invariantes gato_doc [gato]). reflexivity. Defined.

Lemma obterDependencias_ValueError (frase : list Palavra) (w : Palavra) :
  obterDependenciasDoToken frase w = ValueError
  <-> head_ w <> i_ w /\ forall u, In u frase -> i_ u <> head_ w.
Proof.
  unfold obterDependenciasDoToken.
  destruct (head_ w =? i_ w) eqn:Hroot.
  - apply Nat.eqb_eq in Hroot. split; [discriminate|tauto].
  - apply Nat.eqb_neq in Hroot. rewrite <- index_de_None.
    destruct (index_de (head_ w) frase); split; try discriminate; auto.
    intros [_ H]. discriminate.
Qed.

Lemma normalizarPalavras_ValueError (frase : list Palavra) :
  forall resto i,
    normalizarPalavras frase resto i = ValueError
    <-> exists w,
          In w resto /\ obterDependenciasDoToken frase w = ValueError.
Proof.
  induction resto as [|w resto IH]; intros i; simpl.
  - split; [discriminate|intros (u & [] & _)].
  - destruct (obterDependenciasDoToken frase w) as [d|] eqn:Hd.
    + specialize (IH (S i)).
      destruct (normalizarPalavras frase resto (S i)) as [ts|].
      * split; [discriminate|]. intros (u & [<-|Hu] & Hv); [congruence|].
        assert (H : @Normal (list Token) ts = ValueError)
          by (apply IH; eauto). discriminate.
      * split; [|reflexivity]. intros _.
        destruct (proj1 IH eq_refl) as (u & Hu & Hv). eauto.
    + split; [|reflexivity]. intros _. exists w. auto.
Qed.

(** X21: the normaliser fails, with ValueError, exactly when some word of
    some sentence has a head other than itself that is no word of that
    sentence. *)
Theorem normalizar_ValueError (sents : list (list Palavra)) :
  normalizarAnaliseSintatica sents = ValueError
  <-> exists frase w,
        In frase sents /\ In w frase
        /\ head_ w <> i_ w
        /\ forall u, In u frase -> i_ u <> head_ w.
Proof.
  induction sents as [|frase sents IH]; simpl.
  - split; [discriminate|intros (f & w & [] & _)].
  - destruct (normalizarPalavras frase frase 0) as [ts|] eqn:Hts.
    + destruct (normalizarAnaliseSintatica sents) as [ss|].
      * split; [discriminate|].
        intros (f & w & [<-|Hf] & Hw & Hh).
        -- assert (H : normalizarPalavras frase frase 0 = ValueError).
           { apply normalizarPalavras_ValueError. exists w.
             split; [exact Hw|]. now apply obterDependencias_ValueError. }
           congruence.
        -- assert (H : @Normal (list Sentenca) ss = ValueError)
             by (apply IH; eauto). discriminate.
      * split; [|reflexivity]. intros _.
        destruct (proj1 IH eq_refl) as (f & w & Hf & Hrest). eauto 6.
    + split; [|reflexivity]. intros _.
      apply normalizarPalavras_ValueError in Hts as (w & Hw & Hd).
      apply obterDependencias_ValueError in Hd. exists frase, w. tauto.
Qed.

Lemma Forall2_In_r {A B : Type} (P : A -> B -> Prop) (l1 : list A)
    (l2 : list B) (y : B) :
  Forall2 P l1 l2 -> In y l2 -> exists x, In x l1 /\ P x y.
Proof.
  induction 1 as [|a b l1 l2 Hab H IH]; intros Hin; [destruct Hin|].
  destruct Hin as [<-|Hin].
  - exists a. split; [now left|exact Hab].
  - destruct (IH Hin) as (x & Hx & Hxy). exists x. split; [now right|exact Hxy].
Qed.

(** X22: on every sentence the normaliser returns, the walk that collects
    the complements of a verb returns once the budget exceeds the number of
    positions from the root to the end, and the upward walk from a token of
    the sentence raises nothing. *)
Theorem normalizar_percursos (sents : list (list Palavra))
    (ss : list Sentenca) (sentenca : Sentenca) :
  normalizarAnaliseSintatica sents = Normal ss ->
  In sentenca ss ->
  (forall raiz n,
      length (s_tokens sentenca) - indice raiz < n ->
      exists l, obterComplementaresDoVerbo n sentenca raiz = Ok l)
  /\ (forall folha p n,
         In folha (s_tokens sentenca) ->
         buscarAscendenteComPOSEspecifico n sentenca folha p = Estouro
         \/ exists r,
              buscarAscendenteComPOSEspecifico n sentenca folha p = Ok r).
Proof.
  intros H Hin. apply normalizarAnaliseSintatica_invariantes in H.
  destruct (Forall2_In_r _ _ _ _ H Hin) as (frase & _ & Hn & Hs & Hv & _).
  split.
  - intros raiz n Hlt.
    apply (obterComplementares_termina_medida sentenca Hn Hs
             (length (s_tokens sentenca) - indice raiz)); auto.
  - intros folha p n Hf. now apply buscarAscendente_valida.
Qed.

Lemma normalizar_percursos_witness :
  (forall raiz n,
      length (s_tokens gato) - indice raiz < n ->
      exists l, obterComplementaresDoVerbo n gato raiz = Ok l)
  /\ (forall folha p n,
         In folha (s_tokens gato) ->
         buscarAscendenteComPOSEspecifico n gato folha p = Estouro
         \/ exists r, buscarAscendenteComPOSEspecifico n gato folha p = Ok r).
Proof.
  apply (normalizar_percursos gato_doc [gato] gato).
  - reflexivity.
  - simpl. tauto.
Defined.

(** ** More on the metaclass *)

Section MetaclasseMais.

Variable init_ok : string -> Mundo -> bool.

Lemma Singleton_call_forma (cls : string) (w : Mundo) :
  Singleton_call init_ok cls w
  = match _instances w !! cls with
    | Some o => Ok (o, w)
    | None =>
        if init_ok cls w then
          Ok (proximo w,
              {| _instances := <[cls := proximo w]> (_instances w);
                 proximo := S (proximo w);
                 iniciadas := iniciadas w ++ [cls] |})
        else Raise ErroExterno
    end.
Proof.
  unfold Singleton_call, type_call.
  destruct (_instances w !! cls) as [o|] eqn:Hc; simpl.
  - now rewrite Hc.
  - destruct (init_ok cls w); simpl; [|reflexivity].
    now rewrite lookup_insert_eq.
Qed.

(** X23: a constructor call fails exactly when the class has no instance
    yet and its initialiser fails, and then with the initialiser's
    exception: the lookup that ends the call never misses. *)
Theorem Singleton_call_excecao (cls : string) (w : Mundo) (e : exn) :
  Singleton_call init_ok cls w = Raise e
  <-> e = ErroExterno
      /\ _instances w !! cls = None
      /\ init_ok cls w = false.
Proof.
  rewrite Singleton_call_forma.
  destruct (_instances w !! cls) as [o|].
  - split; [discriminate|]. intros (_ & H & _). discriminate.
  - destruct (init_ok cls w).
    + split; [discriminate|]. intros (_ & _ & H). discriminate.
    + split; [intros H; injection H as <-; auto|]. now intros (-> & _).
Qed.

Lemma Singleton_call_mundo_ok (cls : string) (w w1 : Mundo) (o : nat) :
  mundo_ok w ->
  Singleton_call init_ok cls w = Ok (o, w1) ->
  mundo_ok w1
  /\ _instances w1 !! cls = Some o
  /\ forall c o',
       _instances w !! c = Some o' -> _instances w1 !! c = Some o'.
Proof.
  intros [Hlt Hinj]. rewrite Singleton_call_forma.
  destruct (_instances w !! cls) as [o0|] eqn:Hc.
  - intros H. injection H as <- <-. repeat split; auto.
  - destruct (init_ok cls w); [|discriminate].
    intros H. injection H as <- <-. unfold mundo_ok.
    cbn [_instances proximo iniciadas]. split; [split|split].
    + intros c o. rewrite lookup_insert. case_decide.
      * intros Ho. injection Ho as <-. lia.
      * intros Ho. apply Hlt in Ho. lia.
    + intros c1 c2 o. rewrite !lookup_insert.
      repeat case_decide; subst; auto.
      * intros H1 H2. injection H1 as <-. apply Hlt in H2. lia.
      * intros H1 H2. injection H2 as <-. apply Hlt in H1. lia.
      * apply Hinj.
    + apply lookup_insert_eq.
    + intros c o' H. rewrite lookup_insert_ne; [exact H|].
      intros ->. congruence.
Qed.

Lemma chamadas_mundo_ok :
  forall cs w os w2,
    mundo_ok w ->
    chamadas init_ok cs w = Ok (os, w2) ->
    mundo_ok w2
    /\ (forall c o, _instances w !! c = Some o -> _instances w2 !! c = Some o)
    /\ forall i c o,
         cs !! i = Some c -> os !! i = Some o ->
         _instances w2 !! c = Some o.
Proof.
  induction cs as [|c cs IH]; intros w os w2 Hok H; simpl in H.
  - injection H as <- <-. repeat split; try apply Hok; auto.
    intros i c o Hi. discriminate.
  - apply bind_ok in H as ([o1 w1] & Hc & H).
    apply bind_ok in H as ([os' w2'] & Hcs & H). simpl in *.
    injection H as <- <-.
    destruct (Singleton_call_mundo_ok _ _ _ _ Hok Hc) as (Hok1 & Ho1 & Hm1).
    destruct (IH w1 os' w2' Hok1 Hcs) as (Hok2 & Hm2 & Hres).
    split; [exact Hok2|]. split; [auto|].
    intros [|i] c' o Hi Ho; simpl in *.
    + injection Hi as <-. injection Ho as <-. auto.
    + eauto.
Qed.

(** X24: from a state in which identities are handed out in order and no
    object serves two classes, two calls of a sequence of constructor
    calls return the same object exactly when they are calls of the same
    class. *)
Theorem chamadas_distintas (cs : list string) (w w2 : Mundo)
    (os : list nat) (i j : nat) (c1 c2 : string) (o1 o2 : nat) :
  mundo_ok w ->
  chamadas init_ok cs w = Ok (os, w2) ->
  cs !! i = Some c1 -> cs !! j = Some c2 ->
  os !! i = Some o1 -> os !! j = Some o2 ->
  o1 = o2 <-> c1 = c2.
Proof.
  intros Hok H Hi Hj Ho1 Ho2.
  destruct (chamadas_mundo_ok cs w os w2 Hok H) as ([_ Hinj] & _ & Hres).
  assert (H1 := Hres i c1 o1 Hi Ho1). assert (H2 := Hres j c2 o2 Hj Ho2).
  split.
  - intros <-. eapply Hinj; eauto.
  - intros <-. congruence.
Qed.

End MetaclasseMais.

Lemma mundo_inicial_ok : mundo_ok mundo_inicial.
Proof. split; simpl; intros *; rewrite lookup_empty; discriminate. Qed.

Lemma chamadas_distintas_witness : 0 = 1 <-> PLN = "Outra".
Proof.
  apply (chamadas_distintas (fun _ _ => true) [PLN; "Outra"; PLN]
           mundo_inicial
           {| _instances := <["Outra" := 1]> (<[PLN := 0]> ∅);
              proximo := 2; iniciadas := [PLN; "Outra"] |}
           [0; 1; 0] 2 1 PLN "Outra" 0 1).
  - exact mundo_inicial_ok.
  - reflexivity.
  - reflexivity.
  - reflexivity.
  - reflexivity.
  - reflexivity.
Defined.

(** ** No token is returned twice *)

(** A loop invariant that knows which elements have been gone through. *)
Lemma para_invariante_prefixo {A B : Type} (P : list A -> B -> Prop)
    (f : B -> A -> res B) (todos : list A) :
  (forall pre x post a a',
      todos = pre ++ x :: post -> P pre a -> f a x = Ok a' ->
      P (pre ++ [x]) a') ->
  forall l pre acc r,
    todos = pre ++ l -> P pre acc -> para f l acc = Ok r -> P todos r.
Proof.
  intros Hstep. induction l as [|x l IH]; intros pre acc r Ht Hp H;
    simpl in H.
  - injection H as <-. rewrite app_nil_r in Ht. now subst.
  - apply bind_ok in H as (a' & Hx & H).
    apply (IH (pre ++ [x]) a' r); [now rewrite <- app_assoc| |exact H].
    eapply Hstep; eauto.
Qed.

(** A token whose downward walk returns lies on no cycle. *)
Lemma obterDescendentes_sem_ciclo (sentenca : Sentenca) (n k : nat)
    (token : Token) (l : list Token) :
  normalizada sentenca ->
  In token (s_tokens sentenca) ->
  obterDescendentes n sentenca token = Ok l ->
  subir (S k) sentenca (indice token) <> Some (indice token).
Proof.
  intros Hnorm Hin H Hs.
  rewrite (obterDescendentes_ciclo sentenca Hnorm n (indice token) (S k)
             token) in H; [discriminate|lia|exact Hs|].
  now apply In_posicao.
Qed.

Lemma subir_filho (sentenca : Sentenca) (filho : Token) (rel : string)
    (r m : nat) :
  normalizada sentenca -> In filho (s_tokens sentenca) ->
  dependencia filho = Some (rel, r) ->
  subir (S m) sentenca (indice filho) = subir m sentenca r.
Proof.
  intros Hnorm Hin Hdep.
  apply (subir_passo _ _ _ _ filho rel); [now apply In_posicao|exact Hdep].
Qed.

Lemma tokens_iguais (sentenca : Sentenca) (t u : Token) :
  normalizada sentenca ->
  In t (s_tokens sentenca) -> In u (s_tokens sentenca) ->
  indice t = indice u -> t = u.
Proof.
  intros Hnorm Ht Hu Heq.
  apply (In_posicao _ _ Hnorm) in Ht. apply (In_posicao _ _ Hnorm) in Hu.
  rewrite Heq in Ht. congruence.
Qed.

(** Two dependents of one head share no token of their subtrees. *)
Lemma obterDescendentes_disjuntos (sentenca : Sentenca) (n r : nat)
    (c x : Token) (relc relx : string) (sc sx : list Token) :
  normalizada sentenca ->
  In c (s_tokens sentenca) -> In x (s_tokens sentenca) ->
  dependencia c = Some (relc, r) -> dependencia x = Some (relx, r) ->
  obterDescendentes n sentenca c = Ok sc ->
  obterDescendentes n sentenca x = Ok sx ->
  c <> x ->
  forall t, In t (c :: sc) -> In t (x :: sx) -> False.
Proof.
  intros Hnorm Hc Hx Hdc Hdx Hsc Hsx Hne t Htc Htx.
  assert (Hcadeia : forall a y sy (rely : string),
             In y (s_tokens sentenca) ->
             dependencia y = Some (rely, r) ->
             obterDescendentes n sentenca y = Ok sy ->
             subir a sentenca r = Some (indice y) -> False).
  { intros a y sy rely Hy Hdy Hsy Hs.
    apply (obterDescendentes_sem_ciclo sentenca n a y sy Hnorm Hy Hsy).
    now rewrite (subir_filho _ _ _ _ _ Hnorm Hy Hdy). }
  destruct Htc as [<-|Htc]; destruct Htx as [Heq|Htx].
  - congruence.
  - destruct (obterDescendentes_cadeia _ Hnorm _ _ _ Hsx c Htx) as [_ [k Hk]].
    rewrite (subir_filho _ _ _ _ _ Hnorm Hc Hdc) in Hk.
    exact (Hcadeia k x sx relx Hx Hdx Hsx Hk).
  - subst t.
    destruct (obterDescendentes_cadeia _ Hnorm _ _ _ Hsc x Htc) as [_ [k Hk]].
    rewrite (subir_filho _ _ _ _ _ Hnorm Hx Hdx) in Hk.
    exact (Hcadeia k c sc relc Hc Hdc Hsc Hk).
  - destruct (obterDescendentes_cadeia _ Hnorm _ _ _ Hsc t Htc)
      as [Ht [a Ha]].
    destruct (obterDescendentes_cadeia _ Hnorm _ _ _ Hsx t Htx)
      as [_ [b Hb]].
    destruct (Nat.lt_trichotomy a b) as [Hlt|[Heq|Hgt]].
    + replace (S b) with (S a + S (b - a - 1)) in Hb by lia.
      rewrite subir_soma, Ha in Hb.
      change (subir (S (b - a - 1)) sentenca (indice c) = Some (indice x))
        in Hb.
      rewrite (subir_filho _ _ _ _ _ Hnorm Hc Hdc) in Hb.
      exact (Hcadeia _ x sx relx Hx Hdx Hsx Hb).
    + subst b. rewrite Ha in Hb. injection Hb as Heq.
      apply Hne. now apply (tokens_iguais sentenca).
    + replace (S a) with (S b + S (a - b - 1)) in Ha by lia.
      rewrite subir_soma, Hb in Ha.
      change (subir (S (a - b - 1)) sentenca (indice x) = Some (indice c))
        in Ha.
      rewrite (subir_filho _ _ _ _ _ Hnorm Hx Hdx) in Ha.
      exact (Hcadeia _ c sc relc Hc Hdc Hsc Ha).
Qed.

Lemma numerada_prefixo (pre : list Token) :
  forall k x post t,
    numerada k (pre ++ x :: post) = true -> In t pre -> t <> x.
Proof.
  induction pre as [|u pre IH]; intros k x post t Hn Hin; [destruct Hin|].
  simpl in Hn. apply andb_true_iff in Hn as [Hu Hn]. apply Nat.eqb_eq in Hu.
  destruct Hin as [<-|Hin]; [|eauto].
  intros ->.
  assert (Hx : (pre ++ x :: post) !! length pre = Some x)
    by (rewrite lookup_app_r, Nat.sub_diag by lia; reflexivity).
  apply (numerada_lookup _ (S k) _ _ Hn) in Hx. lia.
Qed.

Lemma obterDescendentes_NoDup (sentenca : Sentenca) :
  normalizada sentenca ->
  forall n raiz l,
    obterDescendentes n sentenca raiz = Ok l -> List.NoDup l.
Proof.
  intros Hnorm. induction n as [|n IH]; intros raiz l H; [discriminate|].
  simpl in H.
  pose (P := fun (pre acc : list Token) =>
               List.NoDup acc
               /\ forall t,
                    In t acc ->
                    exists c rel sc,
                      In c pre
                      /\ dependencia c = Some (rel, indice raiz)
                      /\ obterDescendentes n sentenca c = Ok sc
                      /\ In t (c :: sc)).
  assert (Hfim : P (s_tokens sentenca) l); [|exact (proj1 Hfim)].
  revert H.
  apply (para_invariante_prefixo P _ (s_tokens sentenca)) with (pre := []);
    [|reflexivity|split; [constructor|intros t []]].
  intros pre x post a a' Htodos [Hnd Hacc] Hbody.
  assert (Hmais : forall t,
             In t a ->
             exists c rel sc,
               In c (pre ++ [x])
               /\ dependencia c = Some (rel, indice raiz)
               /\ obterDescendentes n sentenca c = Ok sc
               /\ In t (c :: sc)).
  { intros t Ht. destruct (Hacc t Ht) as (c & rel & sc & Hc & Hrest).
    exists c, rel, sc. split; [apply in_or_app; now left|exact Hrest]. }
  assert (Hxin : In x (s_tokens sentenca))
    by (rewrite Htodos; apply in_or_app; right; now left).
  destruct (pai_e x (indice raiz)) eqn:Hpai.
  - apply bind_ok in Hbody as (sub & Hsub & Hbody). injection Hbody as <-.
    apply pai_e_inv in Hpai as [relx Hdx].
    rewrite <- app_assoc. simpl. split.
    + apply List.NoDup_app; [exact Hnd| |].
      * constructor; [|eapply IH; eauto].
        intros Hx.
        destruct (obterDescendentes_cadeia _ Hnorm _ _ _ Hsub x Hx)
          as [_ [k Hk]].
        exact (obterDescendentes_sem_ciclo sentenca n k x sub Hnorm Hxin
                 Hsub Hk).
      * intros t Ht Htx.
        destruct (Hacc t Ht) as (c & relc & sc & Hc & Hdc & Hsc & Htc).
        assert (Hcin : In c (s_tokens sentenca))
          by (rewrite Htodos; apply in_or_app; now left).
        assert (Hne : c <> x).
        { unfold normalizada in Hnorm. rewrite Htodos in Hnorm.
          exact (numerada_prefixo pre 0 x post c Hnorm Hc). }
        exact (obterDescendentes_disjuntos sentenca n (indice raiz) c x
                 relc relx sc sub Hnorm Hcin Hxin Hdc Hdx Hsc Hsub Hne
                 t Htc Htx).
    + intros t Ht. apply in_app_iff in Ht as [Ht|Ht]; [auto|].
      exists x, relx, sub. split; [apply in_or_app; right; now left|auto].
  - injection Hbody as <-. split; auto.
Qed.

(** X25: in a normalised sentence the downward walk returns no token twice,
    so a subject phrase holds each of its tokens once. *)
Theorem obterDescendentes_sem_repeticao (n : nat) (sentenca : Sentenca)
    (raiz : Token) (l : list Token) :
  normalizada sentenca ->
  In raiz (s_tokens sentenca) ->
  obterDescendentes n sentenca raiz = Ok l ->
  List.NoDup l /\ List.NoDup (tokens (ordenar (mkTrecho (raiz :: l)))).
Proof.
  intros Hnorm Hin H.
  assert (Hl := obterDescendentes_NoDup sentenca Hnorm n raiz l H).
  split; [exact Hl|].
  destruct (sorted_indice_fold (raiz :: l) [] (SSorted_nil _))
    as (_ & Hp & _).
  simpl in Hp. eapply Permutation_NoDup; [symmetry; exact Hp|].
  constructor; [|exact Hl].
  intros Hr.
  destruct (obterDescendentes_cadeia _ Hnorm _ _ _ H raiz Hr) as [_ [k Hk]].
  exact (obterDescendentes_sem_ciclo sentenca n k raiz l Hnorm Hin H Hk).
Qed.

Lemma obterDescendentes_sem_repeticao_witness :
  List.NoDup [tk "the" 0 "DET" (Some ("det", 1))]
  /\ List.NoDup (tokens (ordenar (mkTrecho
              [tk "cat" 1 "NOUN" (Some ("nsubj", 2));
               tk "the" 0 "DET" (Some ("det", 1))]))).
Proof.
  apply (obterDescendentes_sem_repeticao 2 gato
           (tk "cat" 1 "NOUN" (Some ("nsubj", 2)))).
  - reflexivity.
  - simpl. tauto.
  - reflexivity.
Defined.

(** * The walks on a sentence with a cycle *)

Lemma subir_prefixo (sentenca : Sentenca) (a b i r : nat) :
  subir (a + b) sentenca i = Some r ->
  exists q, subir a sentenca i = Some q /\ subir b sentenca q = Some r.
Proof.
  rewrite subir_soma. destruct (subir a sentenca i) as [q|]; [|discriminate].
  intros H. exists q. split; [reflexivity|exact H].
Qed.

Lemma subir_dentro (sentenca : Sentenca) (k i r : nat) :
  subir (S k) sentenca i = Some r -> i < length (s_tokens sentenca).
Proof.
  simpl. destruct (s_tokens sentenca !! i) as [token|] eqn:Hi; [|discriminate].
  intros _. eapply lookup_lt_Some; eauto.
Qed.

(** What a cycle reaches lies on a cycle. *)
Lemma ciclo_propaga (sentenca : Sentenca) (k a q r : nat) :
  subir k sentenca q = Some q -> subir a sentenca q = Some r ->
  subir k sentenca r = Some r.
Proof.
  intros Hk Ha.
  assert (H1 : subir (k + a) sentenca q = Some r)
    by (rewrite subir_soma, Hk; exact Ha).
  replace (k + a) with (a + k) in H1 by lia.
  rewrite subir_soma, Ha in H1. exact H1.
Qed.

(** The positions on the way up to one that is on no cycle differ. *)
Lemma caminho_distinto (sentenca : Sentenca) (d j r a b : nat) :
  ~ em_ciclo sentenca r ->
  subir d sentenca j = Some r ->
  a < b -> b <= d ->
  subir a sentenca j <> subir b sentenca j.
Proof.
  intros Hr Hd Hab Hbd Heq.
  replace d with (b + (d - b)) in Hd by lia.
  apply subir_prefixo in Hd as (q & Hq & Hqr).
  rewrite Hq in Heq.
  replace b with (a + (b - a)) in Hq by lia.
  rewrite subir_soma, Heq in Hq.
  apply Hr. exists (b - a). split; [lia|].
  eapply ciclo_propaga; eauto.
Qed.

(** So the way up to such a position is shorter than the sentence. *)
Lemma caminho_curto (sentenca : Sentenca) (d j r : nat) :
  ~ em_ciclo sentenca r ->
  r < length (s_tokens sentenca) ->
  subir d sentenca j = Some r ->
  d < length (s_tokens sentenca).
Proof.
  intros Hr Hlt Hd.
  pose (f := fun a => default 0 (subir a sentenca j)).
  assert (Hsome : forall a, a <= d ->
             exists q, subir a sentenca j = Some q
                       /\ q < length (s_tokens sentenca)).
  { intros a Ha. assert (Hd' := Hd).
    replace d with (a + (d - a)) in Hd' by lia.
    apply subir_prefixo in Hd' as (q & Hq & Hqr).
    exists q. split; [exact Hq|].
    destruct (d - a) as [|k] eqn:Hk.
    - simpl in Hqr. injection Hqr as ->. exact Hlt.
    - eapply subir_dentro; eauto. }
  assert (Hnd : List.NoDup (map f (seq 0 (S d)))).
  { apply List.NoDup_map_NoDup_ForallPairs; [|apply List.seq_NoDup].
    intros a b Ha Hb Hf. apply in_seq in Ha, Hb.
    destruct (Hsome a) as (qa & Hqa & _); [lia|].
    destruct (Hsome b) as (qb & Hqb & _); [lia|].
    unfold f in Hf. rewrite Hqa, Hqb in Hf. simpl in Hf. subst qb.
    destruct (Nat.lt_trichotomy a b) as [Hlt'|[Heq|Hgt]]; [|exact Heq|];
      exfalso.
    - apply (caminho_distinto sentenca d j r a b Hr Hd Hlt'); [lia|].
      congruence.
    - apply (caminho_distinto sentenca d j r b a Hr Hd Hgt); [lia|].
      congruence. }
  assert (Hincl : incl (map f (seq 0 (S d)))
                    (seq 0 (length (s_tokens sentenca)))).
  { intros q Hq. apply in_map_iff in Hq as (a & <- & Ha).
    apply in_seq in Ha. destruct (Hsome a) as (qa & Hqa & Hqlt); [lia|].
    unfold f. rewrite Hqa. simpl. apply in_seq. lia. }
  apply List.NoDup_incl_length in Hincl; [|exact Hnd].
  rewrite List.length_map, !List.length_seq in Hincl. lia.
Qed.

(** The downward walk below a token that is on no cycle is as deep as the
    sentence is long, at most. *)
Lemma obterDescendentes_termina_local (sentenca : Sentenca) (raiz : Token) :
  normalizada sentenca ->
  In raiz (s_tokens sentenca) ->
  ~ em_ciclo sentenca (indice raiz) ->
  forall m c d,
    In c (s_tokens sentenca) ->
    subir d sentenca (indice c) = Some (indice raiz) ->
    length (s_tokens sentenca) <= d + m ->
    forall n, m < n -> exists l, obterDescendentes n sentenca c = Ok l.
Proof.
  intros Hnorm Hraiz Hnc.
  assert (Hr : indice raiz < length (s_tokens sentenca))
    by (eapply lookup_lt_Some; apply In_posicao; eauto).
  induction m as [|m IH]; intros c d Hc Hd Hm n Hn.
  - assert (Hlt := caminho_curto sentenca d _ _ Hnc Hr Hd). lia.
  - destruct n as [|n]; [lia|]. simpl. apply para_total.
    intros a x Hx. destruct (pai_e x (indice c)) eqn:Hpai; [|eauto].
    apply pai_e_inv in Hpai as [rel Hdep].
    destruct (IH x (S d) Hx) with (n := n) as [sub ->]; [|lia|lia|].
    + rewrite (subir_filho _ _ _ _ d Hnorm Hx Hdep). exact Hd.
    + simpl. eauto.
Qed.

(** The upward walk along a head chain that ends in a token without a head
    returns. *)
Lemma buscarAscendente_chega_raiz (sentenca : Sentenca) (p : string) :
  normalizada sentenca ->
  forall m folha j topo,
    In folha (s_tokens sentenca) ->
    subir m sentenca (indice folha) = Some j ->
    s_tokens sentenca !! j = Some topo ->
    dependencia topo = None ->
    forall n, m < n ->
      exists r, buscarAscendenteComPOSEspecifico n sentenca folha p = Ok r.
Proof.
  intros Hnorm. induction m as [|m IH];
    intros folha j topo Hin Hs Hj Htopo n Hn;
    (destruct n as [|n]; [lia|]); simpl.
  - simpl in Hs. injection Hs as <-.
    rewrite (In_posicao _ _ Hnorm Hin) in Hj. injection Hj as <-.
    rewrite Htopo. eauto.
  - destruct (dependencia folha) as [[rel iPai]|] eqn:Hdep; [|eauto].
    rewrite (subir_filho _ _ _ _ m Hnorm Hin Hdep) in Hs.
    assert (Hpai : exists pai, s_tokens sentenca !! iPai = Some pai).
    { destruct m as [|m']; simpl in Hs.
      - injection Hs as ->. eauto.
      - destruct (s_tokens sentenca !! iPai); [eauto|discriminate]. }
    destruct Hpai as [pai Hpai]. unfold item. rewrite Hpai. simpl.
    destruct (String.eqb (pos pai) p); [eauto|].
    assert (Hpi : indice pai = iPai)
      by (rewrite (numerada_lookup _ 0 iPai pai Hnorm Hpai); reflexivity).
    apply (IH pai j topo); auto; [eapply lookup_In; eauto| |lia].
    now rewrite Hpi.
Qed.

(** From a token on a cycle the upward walk finds a token with the POS
    asked for or does not return. *)
Lemma buscarAscendente_no_ciclo (sentenca : Sentenca) (p : string) :
  forall n i k folha,
    0 < k -> subir k sentenca i = Some i ->
    s_tokens sentenca !! i = Some folha ->
    buscarAscendenteComPOSEspecifico n sentenca folha p = Estouro
    \/ exists v,
         buscarAscendenteComPOSEspecifico n sentenca folha p = Ok (Some v)
         /\ pos v = p.
Proof.
  induction n as [|n IH]; intros i k folha Hk Hs Hi; [now left|].
  destruct k as [|k]; [lia|].
  assert (Hs' := Hs). simpl in Hs'. rewrite Hi in Hs'.
  simpl. destruct (dependencia folha) as [[rel iPai]|] eqn:Hdep;
    [|discriminate].
  assert (Hum : subir 1 sentenca i = Some iPai)
    by (simpl; now rewrite Hi, Hdep).
  assert (Hpai : exists pai, s_tokens sentenca !! iPai = Some pai).
  { destruct k as [|k]; simpl in Hs'.
    - injection Hs' as ->. eauto.
    - destruct (s_tokens sentenca !! iPai); [eauto|discriminate]. }
  destruct Hpai as [pai Hpai]. unfold item. rewrite Hpai. simpl.
  destruct (String.eqb (pos pai) p) eqn:Hp.
  - right. exists pai. apply String.eqb_eq in Hp. auto.
  - apply (IH iPai (S k) pai); [lia| |exact Hpai].
    replace (S k) with (k + 1) by lia. rewrite subir_soma, Hs'. exact Hum.
Qed.

(** C2, as the code has it: on a normalised sentence whose dependency edges
    contain a cycle no walk reports a malformed tree.  The downward walk
    raises nothing and the upward walk nothing but IndexError.  From a
    token on a cycle the downward walk exceeds every budget, and the upward
    walk returns a token with the POS asked for or exceeds the budget, the
    latter whenever no token of the cycle has that POS.  From a token on no
    cycle the downward walk returns once the budget exceeds the length of
    the sentence, and an upward walk whose head chain ends in a token
    without a head returns once the budget exceeds the length of that
    chain. *)
Theorem percursos_com_ciclo (sentenca : Sentenca) (token : Token) :
  normalizada sentenca ->
  tem_ciclo sentenca ->
  In token (s_tokens sentenca) ->
  (forall n e, obterDescendentes n sentenca token <> Raise e)
  /\ (forall n p e,
         buscarAscendenteComPOSEspecifico n sentenca token p = Raise e ->
         e = IndexError)
  /\ (em_ciclo sentenca (indice token) ->
      forall n,
        obterDescendentes n sentenca token = Estouro
        /\ forall p,
             (buscarAscendenteComPOSEspecifico n sentenca token p = Estouro
              \/ exists v,
                   buscarAscendenteComPOSEspecifico n sentenca token p
                   = Ok (Some v)
                   /\ pos v = p)
             /\ ((forall m j u,
                     subir m sentenca (indice token) = Some j ->
                     s_tokens sentenca !! j = Some u -> pos u <> p) ->
                 buscarAscendenteComPOSEspecifico n sentenca token p
                 = Estouro))
  /\ (~ em_ciclo sentenca (indice token) ->
      forall n,
        length (s_tokens sentenca) < n ->
        exists l, obterDescendentes n sentenca token = Ok l)
  /\ (forall m j topo,
         subir m sentenca (indice token) = Some j ->
         s_tokens sentenca !! j = Some topo ->
         dependencia topo = None ->
         forall n p,
           m < n ->
           exists r,
             buscarAscendenteComPOSEspecifico n sentenca token p = Ok r).
Proof.
  intros Hnorm _ Hin.
  assert (Hpos := In_posicao _ _ Hnorm Hin).
  split; [intros n e; apply obterDescendentes_sem_raise|].
  split; [intros n p e; apply buscarAscendente_so_IndexError|].
  split; [|split].
  - intros (k & Hk & Hs) n. split.
    + exact (obterDescendentes_ciclo sentenca Hnorm n (indice token) k token
               Hk Hs Hpos).
    + intros p. split.
      * exact (buscarAscendente_no_ciclo sentenca p n (indice token) k token
                 Hk Hs Hpos).
      * intros Hsem.
        exact (buscarAscendente_ciclo sentenca p n (indice token) k token
                 Hk Hs Hpos Hsem).
  - intros Hnc n Hn.
    apply (obterDescendentes_termina_local sentenca token Hnorm Hin Hnc
             (length (s_tokens sentenca)) token 0 Hin eq_refl); lia.
  - intros m j topo Hs Hj Htopo n p Hn.
    exact (buscarAscendente_chega_raiz sentenca p Hnorm m token j topo Hin
             Hs Hj Htopo n Hn).
Qed.

Lemma percursos_com_ciclo_witness :
  (forall n,
      obterDescendentes n misto (tk "a" 0 "NOUN" (Some ("dep", 1)))
      = Estouro)
  /\ (forall n,
         buscarAscendenteComPOSEspecifico n misto
           (tk "a" 0 "NOUN" (Some ("dep", 1))) "VERB" = Estouro)
  /\ (forall n,
         length (s_tokens misto) < n ->
         exists l, obterDescendentes n misto (tk "runs" 2 "VERB" None) = Ok l)
  /\ (forall n p,
         1 < n ->
         exists r,
           buscarAscendenteComPOSEspecifico n misto
             (tk "he" 3 "PRON" (Some ("nsubj", 2))) p = Ok r).
Proof.
  assert (Hnorm : normalizada misto) by reflexivity.
  assert (Hciclo : tem_ciclo misto)
    by (exists 0, 2; split; [lia|reflexivity]).
  assert (Ha : em_ciclo misto (indice (tk "a" 0 "NOUN" (Some ("dep", 1)))))
    by (exists 2; split; [lia|reflexivity]).
  assert (Hruns : ~ em_ciclo misto (indice (tk "runs" 2 "VERB" None))).
  { intros (k & Hk & Hs). destruct k as [|k]; [lia|]. discriminate. }
  assert (Hdentro : forall m,
             (forall j, subir m misto 0 = Some j -> j < 2)
             /\ (forall j, subir m misto 1 = Some j -> j < 2)).
  { induction m as [|m [IH0 IH1]]; simpl.
    - split; intros j H; injection H as <-; lia.
    - split; auto. }
  assert (Hsem : forall m j u,
             subir m misto (indice (tk "a" 0 "NOUN" (Some ("dep", 1))))
             = Some j ->
             s_tokens misto !! j = Some u -> pos u <> "VERB").
  { intros m j u Hs Hj. apply (proj1 (Hdentro m)) in Hs.
    destruct j as [|[|j]]; [| |lia]; simpl in Hj; injection Hj as <-;
      discriminate. }
  destruct (percursos_com_ciclo misto (tk "a" 0 "NOUN" (Some ("dep", 1)))
              Hnorm Hciclo) as (_ & _ & Hca & _ & _); [simpl; tauto|].
  destruct (percursos_com_ciclo misto (tk "runs" 2 "VERB" None)
              Hnorm Hciclo) as (_ & _ & _ & Hcr & _); [simpl; tauto|].
  destruct (percursos_com_ciclo misto (tk "he" 3 "PRON" (Some ("nsubj", 2)))
              Hnorm Hciclo) as (_ & _ & _ & _ & Hch); [simpl; tauto|].
  split; [intros n; apply (Hca Ha n)|].
  split; [intros n; apply (proj2 (Hca Ha n) "VERB"); exact Hsem|].
  split; [exact (Hcr Hruns)|].
  intros n p Hn.
  apply (Hch 1 2 (tk "runs" 2 "VERB" None)); auto.
Defined.
